(** * dc_to_ansible: conversion of a compose descriptor into role defaults

    A shallow embedding of [scripts/dc_to_ansible.py].  Python [str] values
    are lists of characters; a character is a code point of the Latin-1
    range (0..255), carried by [ascii].  Python dictionaries are insertion
    ordered association lists ([PyDict]).  Code that can raise returns a
    [result]. *)

From Stdlib Require Import List Ascii String Bool Arith ZArith NArith Lia.
From Stdlib Require Import DecimalString DecimalPos DecimalZ.
Import ListNotations.

Local Open Scope list_scope.

(* ------------------------------------------------------------------ *)
(** ** Strings *)

Definition str := list ascii.

Definition s (x : string) : str := list_ascii_of_string x.

Definition code (c : ascii) : N := N_of_ascii c.

Definition between (lo hi : N) (c : ascii) : bool :=
  (N.leb lo (code c) && N.leb (code c) hi)%bool.

Definition ch (n : N) : ascii := ascii_of_N n.

Definition str_eqb (a b : str) : bool :=
  if list_eq_dec ascii_dec a b then true else false.

(** [str.startswith] *)
Fixpoint startswith (x p : str) {struct p} : bool :=
  match p, x with
  | [], _ => true
  | _ :: _, [] => false
  | a :: p', b :: x' => (Ascii.eqb a b && startswith x' p')%bool
  end.

(** [\s] of a [str] pattern, on the Latin-1 range: the C whitespace
    characters, the separators 0x1c..0x1f, NEL and the no-break space. *)
Definition is_space (c : ascii) : bool :=
  (between 9 13 c || between 28 32 c || N.eqb (code c) 133
   || N.eqb (code c) 160)%bool.

(** [\d] of a [str] pattern on the same range. *)
Definition is_digit (c : ascii) : bool := between 48 57 c.

(** Characters that [str.lower] changes on this range: A-Z and the
    Latin-1 capitals 0xC0..0xDE except the multiplication sign 0xD7. *)
Definition is_upper (c : ascii) : bool :=
  (between 65 90 c
   || (between 192 222 c && negb (N.eqb (code c) 215)))%bool.

Definition lower_char (c : ascii) : ascii :=
  if is_upper c then ch (code c + 32) else c.

(** [str.lower] *)
Definition lower (x : str) : str := map lower_char x.

(** [str.isalnum() or '_'], the class [\w] of a [str] pattern. *)
Definition is_word (c : ascii) : bool :=
  (between 48 57 c || between 65 90 c || between 97 122 c
   || N.eqb (code c) 95
   || N.eqb (code c) 170 || N.eqb (code c) 178 || N.eqb (code c) 179
   || N.eqb (code c) 181 || N.eqb (code c) 185 || N.eqb (code c) 186
   || between 188 190 c
   || (between 192 255 c && negb (N.eqb (code c) 215)
       && negb (N.eqb (code c) 247)))%bool.

(** [str(n)] for an [int]. *)
Definition str_of_Z (z : Z) : str := s (NilZero.string_of_int (Z.to_int z)).

(** [str.split(sep)] for a one-character separator: the pieces between
    the separators, at least one piece. *)
Fixpoint split_on (sep : ascii) (x : str) : list str :=
  match x with
  | [] => [[]]
  | c :: x' =>
      if Ascii.eqb c sep then [] :: split_on sep x'
      else match split_on sep x' with
           | [] => [[c]]
           | p :: ps => (c :: p) :: ps
           end
  end.

(** [sep.join(pieces)] *)
Fixpoint join (sep : str) (pieces : list str) : str :=
  match pieces with
  | [] => []
  | [p] => p
  | p :: ps => p ++ sep ++ join sep ps
  end.

(** [item.split("=", 1)]: [None] when there is no ["="]. *)
Fixpoint split_once (sep : ascii) (x : str) : option (str * str) :=
  match x with
  | [] => None
  | c :: x' =>
      if Ascii.eqb c sep then Some ([], x')
      else match split_once sep x' with
           | Some (k, v) => Some (c :: k, v)
           | None => None
           end
  end.

(** [str.splitlines()]: the line boundaries of the range are LF, CR,
    CRLF, VT, FF, FS, GS, RS and NEL; no empty last line. *)
Definition is_linebreak (c : ascii) : bool :=
  (between 10 13 c || between 28 30 c || N.eqb (code c) 133)%bool.

Fixpoint splitlines_go (cur : str) (prev_cr : bool) (x : str) : list str :=
  match x with
  | [] => match cur with [] => [] | _ => [cur] end
  | c :: x' =>
      if (prev_cr && N.eqb (code c) 10)%bool then splitlines_go [] false x'
      else if is_linebreak c
           then cur :: splitlines_go [] (N.eqb (code c) 13) x'
           else splitlines_go (cur ++ [c]) false x'
  end.

Definition splitlines (x : str) : list str := splitlines_go [] false x.

(** [str.replace(old, new)], all occurrences from the left. *)
Fixpoint replace_go (old new : str) (skip : nat) (x : str) : str :=
  match x with
  | [] => []
  | c :: x' =>
      match skip with
      | S n => replace_go old new n x'
      | O => if startswith x old
             then new ++ replace_go old new (List.length old - 1) x'
             else c :: replace_go old new 0 x'
      end
  end.

Definition replace (old new x : str) : str :=
  match old with
  | [] => new ++ flat_map (fun c => c :: new) x
  | _ => replace_go old new 0 x
  end.

(* ------------------------------------------------------------------ *)
(** ** Results of code that can raise *)

Inductive error : Type :=
| FileNotFoundError
| ReadError          (* unreadable or undecodable file *)
| ValueError
| KeyError
| IndexError
| TypeError
| AttributeError
| TemplateError.     (* re.error *)

Inductive result (A : Type) : Type :=
| Ok (a : A)
| Raise (e : error).

Arguments Ok {A} a.
Arguments Raise {A} e.

Definition bind {A B : Type} (m : result A) (k : A -> result B) : result B :=
  match m with
  | Ok a => k a
  | Raise e => Raise e
  end.

Notation "x <- m ;; k" := (bind m (fun x => k))
  (at level 61, m at next level, right associativity).

(** A [for] loop whose body can raise, threading the state. *)
Fixpoint for_each {A St : Type} (body : St -> A -> result St)
  (items : list A) (st : St) : result St :=
  match items with
  | [] => Ok st
  | a :: rest => st' <- body st a ;; for_each body rest st'
  end.

(* ------------------------------------------------------------------ *)
(** ** Python dictionaries *)

Module PyDict.

Definition t (V : Type) := list (str * V).

Fixpoint get {V} (k : str) (d : t V) : option V :=
  match d with
  | [] => None
  | (k', v) :: d' => if str_eqb k' k then Some v else get k d'
  end.

(** [d[k] = v]: a present key keeps its position. *)
Fixpoint set {V} (k : str) (v : V) (d : t V) : t V :=
  match d with
  | [] => [(k, v)]
  | (k', v') :: d' =>
      if str_eqb k' k then (k', v) :: d' else (k', v') :: set k v d'
  end.

Definition mem {V} (k : str) (d : t V) : bool :=
  match get k d with Some _ => true | None => false end.

Definition keys {V} (d : t V) : list str := map fst d.

(** [d.setdefault(k, v)] as a statement. *)
Definition setdefault {V} (k : str) (v : V) (d : t V) : t V :=
  if mem k d then d else set k v d.

End PyDict.

(* ------------------------------------------------------------------ *)
(** ** Key normalizer *)

Definition is_space_or_hyphen (c : ascii) : bool :=
  (is_space c || N.eqb (code c) 45)%bool.

Definition is_rbracket (c : ascii) : bool := N.eqb (code c) 93.

Definition underscore : ascii := ch 95.

(** [re.sub(r"[\s-]]", "_", name)]: the pattern is the class [[\s-]]
    followed by a literal closing bracket, so a match is a whitespace or
    hyphen character directly followed by "]". *)
Fixpoint sub_space_hyphen_bracket (name : str) : str :=
  match name with
  | [] => []
  | c :: rest =>
      match rest with
      | d :: t =>
          if (is_space_or_hyphen c && is_rbracket d)%bool
          then underscore :: sub_space_hyphen_bracket t
          else c :: sub_space_hyphen_bracket rest
      | [] => [c]
      end
  end.

Definition normalize_key_and_name (name : str) : str :=
  lower (sub_space_hyphen_bracket name).

(** The normalizer as the specification words it: lowercase, and every
    maximal run of whitespace and hyphen characters becomes one
    underscore. *)
Fixpoint spec_collapse (in_run : bool) (name : str) : str :=
  match name with
  | [] => []
  | c :: rest =>
      if is_space_or_hyphen c
      then if in_run then spec_collapse true rest
           else underscore :: spec_collapse true rest
      else lower_char c :: spec_collapse false rest
  end.

Definition spec_normalize (name : str) : str := spec_collapse false name.

(* ------------------------------------------------------------------ *)
(** ** Regular expressions

    The patterns of the program, parsed: the fragment of [re] with
    literals, [.], [$], concatenation, [|] and [*].  [re.search] is run by
    derivatives; since [$] looks at the text that follows, nullability and
    the derivative take the rest of the subject. *)

Module Re.

Inductive regex : Type :=
| Emp
| Eps
| Chr (c : ascii)
| Dot
| Eol
| Cat (a b : regex)
| Alt (a b : regex)
| Star (a : regex).

(** Comparison of a pattern character with a subject character, under
    [re.IGNORECASE] when [ic] is set. *)
Definition char_eq (ic : bool) (a c : ascii) : bool :=
  if ic then Ascii.eqb (lower_char a) (lower_char c) else Ascii.eqb a c.

Definition is_newline (c : ascii) : bool := N.eqb (code c) 10.

(** [$] without [re.MULTILINE]: the end of the subject, or just before
    a line feed that ends it. *)
Definition at_end (rest : str) : bool :=
  match rest with
  | [] => true
  | [c] => is_newline c
  | _ => false
  end.

Fixpoint nullable (r : regex) (rest : str) : bool :=
  match r with
  | Emp => false
  | Eps => true
  | Chr _ => false
  | Dot => false
  | Eol => at_end rest
  | Cat a b => (nullable a rest && nullable b rest)%bool
  | Alt a b => (nullable a rest || nullable b rest)%bool
  | Star _ => true
  end.

(** Derivative by [c], the subject continuing with [after]. *)
Fixpoint deriv (ic : bool) (r : regex) (c : ascii) (after : str) : regex :=
  match r with
  | Emp => Emp
  | Eps => Emp
  | Chr a => if char_eq ic a c then Eps else Emp
  | Dot => if is_newline c then Emp else Eps
  | Eol => Emp
  | Cat a b =>
      Alt (Cat (deriv ic a c after) b)
          (if nullable a (c :: after) then deriv ic b c after else Emp)
  | Alt a b => Alt (deriv ic a c after) (deriv ic b c after)
  | Star a => Cat (deriv ic a c after) (Star a)
  end.

(** Does [r] match at the start of [x]? *)
Fixpoint match_here (ic : bool) (r : regex) (x : str) : bool :=
  (nullable r x
   || match x with
      | [] => false
      | c :: x' => match_here ic (deriv ic r c x') x'
      end)%bool.

(** [re.search]: a match at some position of the subject. *)
Fixpoint search (ic : bool) (r : regex) (x : str) : bool :=
  (match_here ic r x
   || match x with
      | [] => false
      | _ :: x' => search ic r x'
      end)%bool.

(** A literal word. *)
Fixpoint lit (w : str) : regex :=
  match w with
  | [] => Eps
  | c :: w' => Cat (Chr c) (lit w')
  end.

(** The pattern ["|".join(patterns)]; the empty join is the empty
    pattern. *)
Fixpoint alts (rs : list regex) : regex :=
  match rs with
  | [] => Eps
  | [r] => r
  | r :: rs' => Alt r (alts rs')
  end.

(** [Lang ic r w k]: [r] matches the text [w] when [k] follows it. *)
Inductive Lang (ic : bool) : regex -> str -> str -> Prop :=
| L_Eps k : Lang ic Eps [] k
| L_Chr a c k : char_eq ic a c = true -> Lang ic (Chr a) [c] k
| L_Dot c k : is_newline c = false -> Lang ic Dot [c] k
| L_Eol k : at_end k = true -> Lang ic Eol [] k
| L_Cat a b w1 w2 k :
    Lang ic a w1 (w2 ++ k) -> Lang ic b w2 k ->
    Lang ic (Cat a b) (w1 ++ w2) k
| L_AltL a b w k : Lang ic a w k -> Lang ic (Alt a b) w k
| L_AltR a b w k : Lang ic b w k -> Lang ic (Alt a b) w k
| L_Star0 a k : Lang ic (Star a) [] k
| L_StarS a w1 w2 k :
    Lang ic a w1 (w2 ++ k) -> Lang ic (Star a) w2 k ->
    Lang ic (Star a) (w1 ++ w2) k.

End Re.

(* ------------------------------------------------------------------ *)
(** ** Secret classifier *)

Definition secret_words : list str :=
  [s "password"; s "secret"; s "token"; s "api_key"; s "db_pass";
   s "secret_key"].

(** [(password|secret|token|api_key|db_pass|secret_key)$] *)
Definition patt : Re.regex :=
  Re.Cat (Re.alts (map Re.lit secret_words)) Re.Eol.

(** [is_secret]: [patt] is compiled with [re.IGNORECASE]; the extra
    patterns [secret_seqs] are joined with ["|"] and searched as they
    are.  [None] and the empty sequence are both false in Python. *)
Definition is_secret (service_name key value : str)
  (secret_seqs : option (list Re.regex)) : bool :=
  if Re.search true patt key then true
  else match secret_seqs with
       | Some (p :: ps) => Re.search false (Re.alts (p :: ps)) key
       | _ => false
       end.

(** ** [int] of a string

    [int(x)]: surrounding whitespace is dropped, a sign may come first,
    then decimal digits, with single underscores between digits only;
    anything else raises [ValueError].  The whitespace that [int] drops
    is, on the Latin-1 range, the C whitespace, NEL and the no-break
    space (not the separators 0x1c..0x1f, which [\s] has). *)
Definition is_int_space (c : ascii) : bool :=
  (between 9 13 c || N.eqb (code c) 32 || N.eqb (code c) 133
   || N.eqb (code c) 160)%bool.

Fixpoint drop_space (x : str) : str :=
  match x with
  | c :: x' => if is_int_space c then drop_space x' else x
  | [] => []
  end.

Definition strip (x : str) : str :=
  rev (drop_space (rev (drop_space x))).

(** [digits_from after_digit acc x]: the number written by [x] after the
    digits read into [acc]; [after_digit] tells whether the character
    just read was a digit, so that an underscore may follow. *)
Fixpoint digits_from (after_digit : bool) (acc : Z) (x : str) : option Z :=
  match x with
  | [] => if after_digit then Some acc else None
  | c :: x' =>
      if is_digit c
      then digits_from true (10 * acc + Z.of_N (code c - 48)) x'
      else if (N.eqb (code c) 95 && after_digit)%bool
           then digits_from false acc x'
           else None
  end.

(** The interpreter refuses a text of more digits than this (the
    default of [sys.get_int_max_str_digits()]). *)
Definition max_str_digits : nat := 4300.

Definition int_of_str (x : str) : result Z :=
  let body := strip x in
  let (negative, digits) :=
    match body with
    | c :: rest =>
        if N.eqb (code c) 45 then (true, rest)
        else if N.eqb (code c) 43 then (false, rest)
        else (false, body)
    | [] => (false, [])
    end in
  match digits_from false 0 digits with
  | Some z =>
      if Nat.ltb max_str_digits (List.length (filter is_digit digits))
      then Raise ValueError
      else Ok (if negative then (- z)%Z else z)
  | None => Raise ValueError
  end.

(** ** Replacement templates of [re.sub]

    [re.sub] reads its replacement as a template (Python 3.10 and 3.11,
    [parse_template] of [sre_parse]): a backslash starts an escape.  The
    pattern of [patch_port] has no group, so the only group a template
    may name is group 0, the whole match.  The template is read before
    the subject is searched, so a malformed one raises whether or not
    the pattern matches: [re.error], here [TemplateError], or
    [IndexError] for a group name that is an identifier. *)
Inductive repl_part : Type :=
| RLit (c : ascii)        (* a literal character *)
| RMatch.                 (* the whole match, written \g<0> *)

(** Where the reader of a template stands. *)
Inductive tstate : Type :=
| TNormal
| TEscape                   (* after a backslash *)
| TOctal (v : N) (n : nat)  (* after \0 and n octal digits of value v *)
| TDigit1 (d1 : N)          (* after \d, d in 1..9 *)
| TDigit2 (d1 d2 : N)       (* after \dd *)
| TGroupOpen                (* after \g *)
| TGroupName (name : str).  (* after \g< and the name so far *)

Definition is_backslash (c : ascii) : bool := N.eqb (code c) 92.
Definition is_octdigit (c : ascii) : bool := between 48 55 c.
Definition is_ascii_letter (c : ascii) : bool :=
  (between 65 90 c || between 97 122 c)%bool.
Definition digit_value (c : ascii) : N := code c - 48.

(** The table [ESCAPES] of [sre_parse]. *)
Definition escape_char (c : ascii) : option ascii :=
  let n := code c in
  if N.eqb n 97 then Some (ch 7)            (* \a *)
  else if N.eqb n 98 then Some (ch 8)       (* \b *)
  else if N.eqb n 102 then Some (ch 12)     (* \f *)
  else if N.eqb n 110 then Some (ch 10)     (* \n *)
  else if N.eqb n 114 then Some (ch 13)     (* \r *)
  else if N.eqb n 116 then Some (ch 9)      (* \t *)
  else if N.eqb n 118 then Some (ch 11)     (* \v *)
  else if N.eqb n 92 then Some (ch 92)      (* a doubled backslash *)
  else None.

(** [str.isidentifier] on the Latin-1 range. *)
Definition is_id_start (c : ascii) : bool :=
  (between 65 90 c || N.eqb (code c) 95 || between 97 122 c
   || N.eqb (code c) 170 || N.eqb (code c) 181 || N.eqb (code c) 186
   || between 192 214 c || between 216 246 c || between 248 255 c)%bool.

Definition is_id_continue (c : ascii) : bool :=
  (is_id_start c || is_digit c || N.eqb (code c) 183)%bool.

Definition is_identifier (x : str) : bool :=
  match x with
  | [] => false
  | c :: rest => (is_id_start c && forallb is_id_continue rest)%bool
  end.

(** The end of a group name, [rest] being what follows the closing
    bracket.  A name that is an identifier names no group:
    [IndexError]; the reader looks one token ahead, so a lone backslash
    that ends the template is refused first.  Any other name is read
    with [int], and only the index 0 names a group of a pattern without
    groups. *)
Definition close_group (name rest : str) : result (list repl_part) :=
  match name with
  | [] => Raise TemplateError                      (* missing group name *)
  | _ =>
      if is_identifier name
      then match rest with
           | [c] => if is_backslash c then Raise TemplateError
                    else Raise IndexError
           | _ => Raise IndexError                 (* unknown group name *)
           end
      else match int_of_str name with
           | Ok 0%Z => Ok [RMatch]
           | Ok _ => Raise TemplateError           (* invalid group reference *)
           | Raise _ => Raise TemplateError        (* bad character in group name *)
           end
  end.

Definition template_normal (c : ascii) : tstate * list repl_part :=
  if is_backslash c then (TEscape, []) else (TNormal, [RLit c]).

(** One character [c] read in the state [q], [rest] being what
    follows it. *)
Definition template_step (q : tstate) (c : ascii) (rest : str)
  : result (tstate * list repl_part) :=
  match q with
  | TNormal => Ok (template_normal c)
  | TEscape =>
      if N.eqb (code c) 103 then Ok (TGroupOpen, [])
      else if N.eqb (code c) 48 then Ok (TOctal 0 1, [])
      else if is_digit c then Ok (TDigit1 (digit_value c), [])
      else match escape_char c with
           | Some e => Ok (TNormal, [RLit e])
           | None =>
               if is_ascii_letter c then Raise TemplateError   (* bad escape *)
               else Ok (TNormal, [RLit (ch 92); RLit c])
           end
  | TOctal v n =>
      if (is_octdigit c && Nat.ltb n 3)%bool
      then let v' := (8 * v + digit_value c)%N in
           if Nat.eqb n 2 then Ok (TNormal, [RLit (ch (N.land v' 255))])
           else Ok (TOctal v' (S n), [])
      else let (q', out) := template_normal c in
           Ok (q', RLit (ch (N.land v 255)) :: out)
  | TDigit1 d1 =>
      if is_digit c then Ok (TDigit2 d1 (digit_value c), [])
      else Raise TemplateError                     (* invalid group reference *)
  | TDigit2 d1 d2 =>
      if (N.ltb d1 8 && N.ltb d2 8 && is_octdigit c)%bool
      then let v := (64 * d1 + 8 * d2 + digit_value c)%N in
           if N.ltb 255 v then Raise TemplateError (* octal escape out of range *)
           else Ok (TNormal, [RLit (ch v)])
      else Raise TemplateError                     (* invalid group reference *)
  | TGroupOpen =>
      if N.eqb (code c) 60 then Ok (TGroupName [], [])
      else Raise TemplateError                     (* missing < *)
  | TGroupName name =>
      if N.eqb (code c) 62
      then out <- close_group name rest ;; Ok (TNormal, out)
      else Ok (TGroupName (name ++ [c]), [])
  end.

Definition template_end (q : tstate) : result (list repl_part) :=
  match q with
  | TNormal => Ok []
  | TOctal v _ => Ok [RLit (ch (N.land v 255))]
  | TEscape => Raise TemplateError                 (* bad escape (end of pattern) *)
  | TDigit1 _ | TDigit2 _ _ => Raise TemplateError (* invalid group reference *)
  | TGroupOpen => Raise TemplateError              (* missing < *)
  | TGroupName _ => Raise TemplateError            (* missing >, unterminated name *)
  end.

Fixpoint parse_template_from (q : tstate) (x : str)
  : result (list repl_part) :=
  match x with
  | [] => template_end q
  | c :: x' =>
      r <- template_step q c x' ;;
      rest <- parse_template_from (fst r) x' ;;
      Ok (snd r ++ rest)
  end.

Definition parse_template (repl : str) : result (list repl_part) :=
  parse_template_from TNormal repl.

(** The text a template stands for, given the text of the match. *)
Definition expand_template (parts : list repl_part) (matched : str) : str :=
  flat_map (fun part => match part with
                        | RLit c => [c]
                        | RMatch => matched
                        end) parts.

(** ** [patch_port]: [re.sub(r"^\d+", new_key, port_line)] *)
Fixpoint drop_digits (x : str) : str :=
  match x with
  | c :: x' => if is_digit c then drop_digits x' else x
  | [] => []
  end.

Fixpoint leading_digits (x : str) : str :=
  match x with
  | c :: x' => if is_digit c then c :: leading_digits x' else []
  | [] => []
  end.

(** The line with its leading run of digits, if it has one, replaced by
    [repl]: what the substitution gives for a replacement that stands
    for itself. *)
Definition sub_leading_digits (port_line repl : str) : str :=
  match port_line with
  | c :: _ => if is_digit c then repl ++ drop_digits port_line
              else port_line
  | [] => []
  end.

Definition patch_port (port_line new_key : str) : result str :=
  parts <- parse_template new_key ;;
  Ok (sub_leading_digits port_line
        (expand_template parts (leading_digits port_line))).

(** [re.sub(r"\d+", repl, text)]: every run of digits is replaced. *)
Fixpoint sub_digit_runs (repl : str) (in_run : bool) (text : str) : str :=
  match text with
  | [] => []
  | c :: t =>
      if is_digit c
      then if in_run then sub_digit_runs repl true t
           else repl ++ sub_digit_runs repl true t
      else c :: sub_digit_runs repl false t
  end.

(* ------------------------------------------------------------------ *)
(** ** Data model *)

(** Modelled from the spec: the discriminant of a mount spec of [dc.py]
    (the pydantic model of the canonical descriptor is not among the
    sources); [bind], [volume], or another type. *)
Inductive mount_type : Type := Bind | NamedVolume | OtherMount.

(** Modelled from the spec: a mount spec, with its type and its
    [source] (a host path or a volume name). *)
Record Mount : Type := { m_type : mount_type; m_source : str }.

(** Modelled from the spec: the value of [published], as the descriptor
    gives it: a number or a string. *)
Inductive PortValue : Type :=
| PInt (z : Z)
| PStr (x : str).

(** Modelled from the spec: a port spec; [published] is the optional
    host port. *)
Record Port : Type := { published : option PortValue }.

(** Python's truth value of a port value: the number 0 and the empty
    string are false, every other value is true (so is the string
    [0]). *)
Definition truthy (v : PortValue) : bool :=
  match v with
  | PInt z => negb (Z.eqb z 0)
  | PStr [] => false
  | PStr (_ :: _) => true
  end.

(** [int(v)] for a port value. *)
Definition py_int (v : PortValue) : result Z :=
  match v with
  | PInt z => Ok z
  | PStr x => int_of_str x
  end.

(** Modelled from the spec: a named volume. *)
Record Volume : Type := { v_name : str }.

(** Modelled from the spec: a service of [dc.py]; [environment] is
    [None] or a mapping ([env.root]) with string values, the field
    [volumes] is [None] or a sequence of mounts, [ports] is a sequence
    ([None] being the empty one), [image] is a string. *)
Record Service : Type := {
  environment : option (PyDict.t str);
  volumes_field : option (list Mount);
  ports : list Port;
  image : str
}.

(** [data.volumes or []], the mounts the walker goes through. *)
Definition volumes (svc : Service) : list Mount :=
  match volumes_field svc with
  | Some l => l
  | None => []
  end.

(** Modelled from the spec: the canonical descriptor of [dc.py], the
    services by name and the volumes by name. *)
Record ComposeSpecification : Type := {
  services : PyDict.t Service;
  top_volumes : option (PyDict.t (option Volume))
}.

(** The original descriptor, the YAML document [final], with the
    entries that the program reads; the environment is a list of
    ["KEY=VALUE"] items or a mapping, [env_file] one path or a list of
    paths, volumes and ports are lists of strings (the short syntax). *)
Inductive env_form : Type :=
| EnvList (items : list str)
| EnvDict (d : PyDict.t str).

Inductive env_file_form : Type :=
| EnvFileOne (p : str)
| EnvFileMany (ps : list str).

Record RawService : Type := {
  r_environment : option env_form;
  r_env_file : option env_file_form;
  r_volumes : option (list str);
  r_ports : option (list str);
  r_image : option str;
  r_user : option str;
  r_networks : option (list str)
}.

Record NetDef : Type := { net_name : option str; net_external : bool }.

Record Descriptor : Type := {
  f_services : PyDict.t RawService;
  f_networks : option (PyDict.t NetDef)
}.

(** What a path of the descriptor denotes on disk, once it is resolved
    against the directory of the descriptor. *)
Inductive fstat : Type :=
| Absent                 (* no regular file there *)
| Unreadable             (* a file whose [read_text] raises *)
| File (content : str).

(** The secret path template, parsed into its literal pieces and its
    three format fields. *)
Inductive tpl_seg : Type :=
| TLit (x : str)
| TRoleName
| TServiceName
| TEnvKey.

Record Config : Type := {
  opt_defaults_prefix : str;
  opt_role_name : str;
  secret_string_template : list tpl_seg;
  min_secret_length : Z;
  proxy_container : option str;
  ext_proxy_net : str;
  uid : option Z;
  fs : str -> fstat
}.

Inductive Value : Type :=
| VStr (x : str)
| VInt (z : Z)
| VDict (d : PyDict.t str).

(** A record of [bootstrap_data["defaults"]]; the optional entries of
    the dictionary are options. *)
Record DefaultRecord : Type := {
  d_key : str;
  d_original_key : option str;
  d_value : Value;
  d_is_secret : bool;
  d_service : str;
  d_secret_path : option str;
  d_secret_expr : option str;
  d_env_file : option str
}.

Record ImageData : Type := {
  i_service : str;
  i_tag : str;
  i_kind : option str
}.

(** The containers that the closures of [main] share. *)
Record State : Type := {
  defaults : list DefaultRecord;
  env_files : PyDict.t str;
  backup_paths : list str;
  exposed_ports_by_service : PyDict.t (list Z);
  services_by_env : PyDict.t (list str);
  volume_defaults : PyDict.t str;
  images_tags : PyDict.t ImageData
}.

Definition init_state : State :=
  {| defaults := []; env_files := []; backup_paths := [];
     exposed_ports_by_service := []; services_by_env := [];
     volume_defaults := []; images_tags := [] |}.

Definition with_backup_path (p : str) (st : State) : State :=
  {| defaults := defaults st; env_files := env_files st;
     backup_paths := backup_paths st ++ [p];
     exposed_ports_by_service := exposed_ports_by_service st;
     services_by_env := services_by_env st;
     volume_defaults := volume_defaults st;
     images_tags := images_tags st |}.

Definition with_exposed_port (name : str) (p : Z) (st : State) : State :=
  {| defaults := defaults st; env_files := env_files st;
     backup_paths := backup_paths st;
     exposed_ports_by_service :=
       PyDict.set name
         (match PyDict.get name (exposed_ports_by_service st) with
          | Some l => l ++ [p]
          | None => [p]
          end) (exposed_ports_by_service st);
     services_by_env := services_by_env st;
     volume_defaults := volume_defaults st;
     images_tags := images_tags st |}.

Definition with_volume_default (k v : str) (st : State) : State :=
  {| defaults := defaults st; env_files := env_files st;
     backup_paths := backup_paths st;
     exposed_ports_by_service := exposed_ports_by_service st;
     services_by_env := services_by_env st;
     volume_defaults := PyDict.set k v (volume_defaults st);
     images_tags := images_tags st |}.

Definition with_image_tag (k : str) (v : ImageData) (st : State) : State :=
  {| defaults := defaults st; env_files := env_files st;
     backup_paths := backup_paths st;
     exposed_ports_by_service := exposed_ports_by_service st;
     services_by_env := services_by_env st;
     volume_defaults := volume_defaults st;
     images_tags := PyDict.set k v (images_tags st) |}.

Definition with_default (r : DefaultRecord) (st : State) : State :=
  {| defaults := defaults st ++ [r]; env_files := env_files st;
     backup_paths := backup_paths st;
     exposed_ports_by_service := exposed_ports_by_service st;
     services_by_env := services_by_env st;
     volume_defaults := volume_defaults st;
     images_tags := images_tags st |}.

Definition with_env_file (k v : str) (st : State) : State :=
  {| defaults := defaults st; env_files := PyDict.set k v (env_files st);
     backup_paths := backup_paths st;
     exposed_ports_by_service := exposed_ports_by_service st;
     services_by_env := services_by_env st;
     volume_defaults := volume_defaults st;
     images_tags := images_tags st |}.

(** [services_by_env[key].append(service_name)] on the [defaultdict]. *)
Definition with_service_of_env (k name : str) (st : State) : State :=
  {| defaults := defaults st; env_files := env_files st;
     backup_paths := backup_paths st;
     exposed_ports_by_service := exposed_ports_by_service st;
     services_by_env :=
       PyDict.set k
         (match PyDict.get k (services_by_env st) with
          | Some l => l ++ [name]
          | None => [name]
          end) (services_by_env st);
     volume_defaults := volume_defaults st;
     images_tags := images_tags st |}.

(* ------------------------------------------------------------------ *)
(** ** The closures of [main] *)

Definition endswith (x p : str) : bool := startswith (rev x) (rev p).

Definition file_docker_file_mount_identifier : str :=
  s "# deploy-docker-compose-template::type".

Definition file_type_env : str :=
  file_docker_file_mount_identifier ++ s "::env".

Definition placeholder (expr : str) : str := s "{{ " ++ expr ++ s " }}".

(** [env_to_dict]: an item without ["="] fails to unpack. *)
Fixpoint env_to_dict_from (e : PyDict.t str) (env_ : list str)
  : result (PyDict.t str) :=
  match env_ with
  | [] => Ok e
  | item :: rest =>
      match split_once (ch 61) item with
      | Some (k, v) => env_to_dict_from (PyDict.set k v e) rest
      | None => Raise ValueError
      end
  end.

Definition env_to_dict (env_ : list str) : result (PyDict.t str) :=
  env_to_dict_from [] env_.

(** The generator [iterate] of [env_from_file], on the lines read. *)
Definition iterate (compose_env_file : bool) (lines : list str) : list str :=
  match lines with
  | [] => []
  | line0 :: _ =>
      if (negb compose_env_file && negb (startswith line0 file_type_env))%bool
      then []
      else filter
             (fun line =>
                match line with
                | [] => false
                | _ => negb (startswith line (s "#"))
                end) lines
  end.

Definition env_from_text (text : str) (compose_env_file : bool)
  : result (PyDict.t str) :=
  env_to_dict (iterate compose_env_file (splitlines text)).

(** [patch_image_tag] *)
Definition patch_image_tag (image new_tag : str) : str :=
  let splits := split_on (ch 58) image in
  join (s ":") (removelast splits ++ [new_tag]).

(** The last component of [Path(path).parts]: empty and ["."] segments
    do not count; a path of slashes only is its root. *)
Definition path_last_part (path : str) : option str :=
  let segs :=
    filter (fun p => negb (str_eqb p [] || str_eqb p (s "."))%bool)
      (split_on (ch 47) path) in
  match rev segs with
  | p :: _ => Some p
  | [] =>
      if (startswith path (s "//") && negb (startswith path (s "///")))%bool
      then Some (s "//")
      else if startswith path (s "/") then Some (s "/") else None
  end.

(** [m = re.search(r"[\w._]+$", val)] and [m.group(0)]: the longest run
    of class characters that ends where [$] holds. *)
Definition is_vol_id_char (c : ascii) : bool :=
  (is_word c || N.eqb (code c) 46)%bool.

Fixpoint take_while (f : ascii -> bool) (x : str) : str :=
  match x with
  | c :: x' => if f c then c :: take_while f x' else []
  | [] => []
  end.

Definition search_vol_id (val : str) : option str :=
  let body := match rev val with
              | c :: r => if Re.is_newline c then r else c :: r
              | [] => []
              end in
  match rev (take_while is_vol_id_char body) with
  | [] => None
  | m => Some m
  end.

(** [db_search_patt.search(image)] and [m.group(1)]: the first position
    where one of the supported names starts. *)
Definition supported : list str := [s "mariadb"; s "postgres"; s "redis"].

Fixpoint search_supported (image : str) : option str :=
  match find (fun w => startswith image w) supported with
  | Some w => Some w
  | None => match image with
            | [] => None
            | _ :: image' => search_supported image'
            end
  end.

(** [len(value)] *)
Definition py_len (v : Value) : result Z :=
  match v with
  | VStr x => Ok (Z.of_nat (List.length x))
  | VDict d => Ok (Z.of_nat (List.length d))
  | VInt _ => Raise TypeError
  end.

Definition read_text (st : fstat) : result str :=
  match st with
  | Absent => Raise FileNotFoundError
  | Unreadable => Raise ReadError
  | File content => Ok content
  end.

Definition lookup {V} (k : str) (d : PyDict.t V) : result V :=
  match PyDict.get k d with
  | Some v => Ok v
  | None => Raise KeyError
  end.

Section Main.

Variable cfg : Config.

(** The prefix after [main] has closed it with an underscore. *)
Definition defaults_prefix : str :=
  if endswith (opt_defaults_prefix cfg) (s "_")
  then opt_defaults_prefix cfg
  else opt_defaults_prefix cfg ++ s "_".

Definition variable_from_env (key : str) : str :=
  defaults_prefix ++ normalize_key_and_name key.

Definition variable_from_port (service_name : str) (exposed_port : Z)
  (add_prefix : bool) : str :=
  (if add_prefix then defaults_prefix else [])
    ++ s "host_port_" ++ service_name ++ s "_" ++ str_of_Z exposed_port.

Definition role_name : str := normalize_key_and_name (opt_role_name cfg).

Definition releases_key : str := normalize_key_and_name (s "releases").

Definition get_secret_path (svc_name key : str) : str :=
  flat_map
    (fun seg =>
       match seg with
       | TLit x => x
       | TRoleName => role_name
       | TServiceName => svc_name
       | TEnvKey => key
       end) (secret_string_template cfg).

Definition file_name_id (path : str) : result str :=
  match path_last_part path with
  | Some part =>
      Ok (normalize_key_and_name (join (s "_") (split_on (ch 46) part)))
  | None => Raise IndexError
  end.

Definition get_secret_expr (value : Value) (secret_path : str)
  : result str :=
  n <- py_len value ;;
  Ok (s "{{ lookup('community.general.passwordstore', '"
        ++ secret_path ++ s " create=true length="
        ++ str_of_Z (Z.max n (min_secret_length cfg)) ++ s "') }}").

(** [services_by_env.get(key)] is true for a non-empty list. *)
Definition seen (key : str) (st : State) : bool :=
  match PyDict.get key (services_by_env st) with
  | Some (_ :: _) => true
  | _ => false
  end.

Definition add_to_defaults (key : str) (val : Value) (service_name : str)
  (is_secret : bool) (env_file : option str) (st : State) : result State :=
  if seen key st then Ok st
  else
    secret <-
      (if is_secret
       then let path := get_secret_path service_name key in
            expr <- get_secret_expr val path ;;
            Ok (Some path, Some expr)
       else Ok (None, None)) ;;
    st1 <-
      match env_file with
      | Some (c :: f) =>
          id <- file_name_id (c :: f) ;;
          Ok (with_env_file (c :: f) id st)
      | _ => Ok st
      end ;;
    Ok (with_service_of_env key service_name
          (with_default
             {| d_key := variable_from_env key;
                d_original_key := Some key;
                d_value := val;
                d_is_secret := is_secret;
                d_service := service_name;
                d_secret_path := fst secret;
                d_secret_expr := snd secret;
                d_env_file := match env_file with
                              | Some (c :: f) => Some (c :: f)
                              | _ => None
                              end |} st1)).

Definition handle_secret_env_var (svc_name key value : str)
  (env_file : option str) (st : State) : result State :=
  add_to_defaults key (VStr value) svc_name true env_file st.

Definition handle_env_var (svc_name key value : str)
  (env_file : option str) (st : State) : result State :=
  add_to_defaults key (VStr value) svc_name false env_file st.

(** The body of the loops over the pairs of an environment: the pair
    is classified, then registered with the env file of its key. *)
Definition handle_key_value (name : str) (env_file : str -> option str)
  (st : State) (kv : str * str) : result State :=
  let (key, value) := kv in
  if is_secret name key value None
  then handle_secret_env_var name key value (env_file key) st
  else handle_env_var name key value (env_file key) st.

Definition env_file_list (ef : option env_file_form) : list str :=
  match ef with
  | Some (EnvFileOne []) => []
  | Some (EnvFileOne p) => [p]
  | Some (EnvFileMany ps) => ps
  | None => []
  end.

(** One env file of the service read, its keys pointed to it. *)
Definition index_env_file (names : PyDict.t str) (fp : str)
  : result (PyDict.t str) :=
  text <- read_text (fs cfg fp) ;;
  file_env_data <- env_from_text text true ;;
  Ok (fold_left (fun acc k => PyDict.set k fp acc)
        (PyDict.keys file_env_data) names).

(** [handle_svc_environment]: an environment that is [None] ends the
    function; the env files are read with no guard and no handler. *)
Definition handle_svc_environment (final : Descriptor) (name : str)
  (svc : Service) (st : State) : result State :=
  match environment svc with
  | None => Ok st
  | Some env =>
      raw <- lookup name (f_services final) ;;
      names_to_env_files <-
        for_each index_env_file (env_file_list (r_env_file raw)) [] ;;
      for_each
        (handle_key_value name (fun k => PyDict.get k names_to_env_files))
        env st
  end.

(** The scan of a bind-mounted file: a missing file ends it, and so
    does any exception of the parse, which is caught. *)
Definition handle_svc_env_file (name path : str) (st : State)
  : result State :=
  match fs cfg path with
  | Absent => Ok st
  | other =>
      match (text <- read_text other ;; env_from_text text false) with
      | Raise _ => Ok st
      | Ok env =>
          for_each (handle_key_value name (fun _ => Some path)) env st
      end
  end.

(** The body of the loop of [handle_svc_volumes]. *)
Definition handle_svc_volume (name : str)
  (vols : option (PyDict.t (option Volume))) (st : State) (vol : Mount)
  : result State :=
  match m_type vol with
  | Bind =>
      let val := m_source vol in
      st1 <- handle_svc_env_file name val (with_backup_path val st) ;;
      let vol_id := match search_vol_id val with
                    | Some m => m
                    | None => s "data"
                    end in
      let vol_id := replace (s ".") (s "_") vol_id in
      Ok (with_volume_default val
            (defaults_prefix ++ vol_id ++ s "_mount_dir") st1)
  | NamedVolume =>
      match vols with
      | None => Raise TypeError
      | Some d =>
          v <- lookup (m_source vol) d ;;
          match v with
          | None => Raise AttributeError
          | Some v' =>
              Ok (with_backup_path
                    (s "/var/lib/docker/volumes" ++ s "/" ++ v_name v') st)
          end
      end
  | OtherMount => Ok st
  end.

Definition handle_svc_volumes (name : str) (data : Service)
  (vols : option (PyDict.t (option Volume))) (st : State) : result State :=
  for_each (handle_svc_volume name vols) (volumes data) st.

(** The body of the loop of [handle_svc_ports]. *)
Definition handle_svc_port (name : str) (st : State) (port : Port)
  : result State :=
  match published port with
  | None => Ok st
  | Some v =>
      if truthy v
      then
        host_port <- py_int v ;;
        add_to_defaults (variable_from_port name host_port false)
          (VInt host_port) name false None
          (with_exposed_port name host_port st)
      else Ok st
  end.

Definition handle_svc_ports (name : str) (data : Service) (st : State)
  : result State :=
  for_each (handle_svc_port name) (ports data) st.

Definition handle_service_image (name : str) (svc : Service) (st : State)
  : State :=
  let image := image svc in
  with_image_tag image
    {| i_service := name;
       i_tag := last (split_on (ch 58) image) [];
       i_kind := search_supported image |} st.

Definition add_releases_to_defaults (st : State) : State :=
  with_default
    {| d_key := variable_from_env releases_key;
       d_original_key := None;
       d_value :=
         VDict (fold_left
                  (fun acc kv => PyDict.set (i_service (snd kv))
                                   (i_tag (snd kv)) acc)
                  (images_tags st) []);
       d_is_secret := false;
       d_service := s "None";
       d_secret_path := None;
       d_secret_expr := None;
       d_env_file := None |} st.

(** The body of the loop of [handle_services]. *)
Definition handle_service (final : Descriptor)
  (model : ComposeSpecification) (st : State) (item : str * Service)
  : result State :=
  let (svc_name, svc) := item in
  st1 <- handle_svc_environment final svc_name svc st ;;
  st2 <- handle_svc_volumes svc_name svc (top_volumes model) st1 ;;
  st3 <- handle_svc_ports svc_name svc st2 ;;
  Ok (handle_service_image svc_name svc st3).

Definition handle_services (final : Descriptor)
  (model : ComposeSpecification) (st : State) : result State :=
  for_each (handle_service final model) (services model) st.

End Main.

(* ------------------------------------------------------------------ *)
(** ** Descriptor rewriter *)

Fixpoint map_result {A B : Type} (f : A -> result B) (l : list A)
  : result (list B) :=
  match l with
  | [] => Ok []
  | a :: rest => b <- f a ;; bs <- map_result f rest ;; Ok (b :: bs)
  end.

Section Rewriter.

Variable cfg : Config.
Variable model : ComposeSpecification.
Variable st : State.

(** The placeholder that replaces the value of an environment key. *)
Definition env_placeholder (key : str) : str :=
  placeholder (variable_from_env cfg key).

Definition rewrite_env_dict (env_ : PyDict.t str) : PyDict.t str :=
  map (fun kv => (fst kv, env_placeholder (fst kv))) env_.

Definition rewrite_environment (e : option env_form)
  : result (option env_form) :=
  match e with
  | None => Ok None
  | Some (EnvList items) =>
      env_ <- env_to_dict items ;;
      Ok (Some (EnvDict (rewrite_env_dict env_)))
  | Some (EnvDict env_) => Ok (Some (EnvDict (rewrite_env_dict env_)))
  end.

(** The volume strings, each with the source of the canonical mount
    of the same index. *)
Fixpoint rewrite_volume_list (canon : list Mount) (vols : list str)
  : result (list str) :=
  match vols with
  | [] => Ok []
  | vol :: vols' =>
      match canon with
      | [] => Raise IndexError
      | m :: canon' =>
          let val := m_source m in
          let vol' :=
            match PyDict.get val (volume_defaults st) with
            | Some k => replace val (placeholder k) vol
            | None => vol
            end in
          rest <- rewrite_volume_list canon' vols' ;;
          Ok (vol' :: rest)
      end
  end.

Definition rewrite_volumes (name : str) (vols : option (list str))
  : result (option (list str)) :=
  match vols with
  | None => Ok None
  | Some [] => Ok (Some [])
  | Some l =>
      svc <- lookup name (services model) ;;
      match volumes_field svc with
      | None => Raise TypeError
      | Some canon =>
          l' <- rewrite_volume_list canon l ;;
          Ok (Some l')
      end
  end.

Definition port_placeholder (name : str) (exposed_port : Z) : str :=
  placeholder (variable_from_port cfg name exposed_port true).

Definition exposed_ports (name : str) : list Z :=
  match PyDict.get name (exposed_ports_by_service st) with
  | Some l => l
  | None => []
  end.

Definition rewrite_ports (name : str) (ports_ : option (list str))
  : result (option (list str)) :=
  new_ports <-
    map_result
      (fun pe => patch_port (fst pe) (port_placeholder name (snd pe)))
      (combine (match ports_ with Some l => l | None => [] end)
         (exposed_ports name)) ;;
  Ok (match new_ports with
      | [] => ports_
      | _ => Some new_ports
      end).

Definition image_placeholder (name : str) : str :=
  placeholder
    (variable_from_env cfg (releases_key) ++ s "['" ++ name ++ s "']").

Definition rewrite_user (user : option str) : option str :=
  match uid cfg, user with
  | Some 0%Z, _ => user
  | Some u, Some (c :: r) =>
      Some (sub_digit_runs (str_of_Z u) false (c :: r))
  | _, _ => user
  end.

(** The body of the loop of [create_final_compose]. *)
Definition rewrite_service (item : str * RawService)
  : result (str * RawService) :=
  let (name, data) := item in
  env_ <- rewrite_environment (r_environment data) ;;
  vols <- rewrite_volumes name (r_volumes data) ;;
  ports_ <- rewrite_ports name (r_ports data) ;;
  img <- match r_image data with
         | Some img => Ok img
         | None => Raise KeyError
         end ;;
  Ok (name,
      {| r_environment := env_;
         r_env_file := r_env_file data;
         r_volumes := vols;
         r_ports := ports_;
         r_image := Some (patch_image_tag img (image_placeholder name));
         r_user := rewrite_user (r_user data);
         r_networks := r_networks data |}).

Definition handle_proxy_container (compose_config : Descriptor)
  : result Descriptor :=
  match proxy_container cfg with
  | None | Some [] => Ok compose_config
  | Some pc =>
      let nets := match f_networks compose_config with
                  | Some d => d
                  | None => []
                  end in
      svc <- lookup pc (f_services compose_config) ;;
      let joined := match r_networks svc with
                    | Some l => l
                    | None => []
                    end ++ [ext_proxy_net cfg] in
      let joined := match joined with
                    | [_] => joined ++ [s "default"]
                    | _ => joined
                    end in
      Ok {| f_services :=
              PyDict.set pc
                {| r_environment := r_environment svc;
                   r_env_file := r_env_file svc;
                   r_volumes := r_volumes svc;
                   r_ports := r_ports svc;
                   r_image := r_image svc;
                   r_user := r_user svc;
                   r_networks := Some joined |}
                (f_services compose_config);
            f_networks :=
              Some (PyDict.setdefault (ext_proxy_net cfg)
                      {| net_name := Some (ext_proxy_net cfg);
                         net_external := true |} nets) |}
  end.

Definition create_final_compose (final_compose : Descriptor)
  : result Descriptor :=
  svcs <- map_result rewrite_service (f_services final_compose) ;;
  handle_proxy_container
    {| f_services := svcs; f_networks := f_networks final_compose |}.

End Rewriter.

(* ------------------------------------------------------------------ *)
(** ** The run *)

(** What the run hands to the output model: the shared containers and
    the rewritten descriptor. *)
Record Output : Type := {
  bootstrap_data : State;
  final_compose : Descriptor
}.

(** [main] after the two descriptors are loaded: the walk over the
    canonical [model], the releases record, the rewrite of [final]. *)
Definition main (cfg : Config) (model : ComposeSpecification)
  (final : Descriptor) : result Output :=
  st <- handle_services cfg final model init_state ;;
  let st := add_releases_to_defaults cfg st in
  rewritten <- create_final_compose cfg model st final ;;
  Ok {| bootstrap_data := st; final_compose := rewritten |}.

(* ------------------------------------------------------------------ *)
(** ** Vocabulary of the statements *)

Definition head_is_rbracket (x : str) : bool :=
  match x with
  | d :: _ => is_rbracket d
  | [] => false
  end.

(** No whitespace or hyphen character stands directly before a closing
    bracket: the pattern of the normalizer has no match. *)
Fixpoint no_match (x : str) : bool :=
  match x with
  | [] => true
  | c :: rest =>
      (negb (is_space_or_hyphen c && head_is_rbracket rest)
       && no_match rest)%bool
  end.

(** [key.lower().endswith(w)] for one of the secret words: the key
    ends, whatever the case, in the word. *)
Definition ends_in_secret_word (key : str) : bool :=
  existsb (fun w => endswith (lower key) w) secret_words.

(** The records of the defaults list registered for a source key. *)
Definition registered_for (key : str) (r : DefaultRecord) : bool :=
  match d_original_key r with
  | Some k => str_eqb k key
  | None => false
  end.

Definition records_of (key : str) (l : list DefaultRecord)
  : list DefaultRecord :=
  filter (registered_for key) l.

(** The registry is consistent: a key that was seen has exactly one
    record, named by the prefixed normalized key, and a key that was not
    seen has none. *)
Definition registry_ok (cfg : Config) (st : State) : Prop :=
  forall k,
    if seen k st
    then exists r, records_of k (defaults st) = [r]
                   /\ d_key r = variable_from_env cfg k
    else records_of k (defaults st) = [].

(** Does the first line of a file start with the env-file marker? *)
Definition first_line_is_marked (content : str) : bool :=
  match splitlines content with
  | line0 :: _ => startswith line0 file_type_env
  | [] => false
  end.

(** The host port that a port entry publishes, as the walker reads it:
    none for a value that Python takes as false, the number that [int]
    makes of any other value. *)
Definition host_port (port : Port) : result (option Z) :=
  match published port with
  | None => Ok None
  | Some v => if truthy v then p <- py_int v ;; Ok (Some p) else Ok None
  end.

(** The host ports that a list of port entries publishes, in order. *)
Fixpoint host_ports (l : list Port) : result (list Z) :=
  match l with
  | [] => Ok []
  | port :: l' =>
      h <- host_port port ;;
      hs <- host_ports l' ;;
      Ok (match h with Some p => p :: hs | None => hs end)
  end.

(** The records flagged secret are registered for keys that the secret
    classifier accepts. *)
Definition classified (st : State) : Prop :=
  forall r k,
    In r (defaults st) -> d_original_key r = Some k ->
    d_is_secret r = true -> Re.search true patt k = true.

(** The service with another list of mounts. *)
Definition with_volumes (data : Service) (l : list Mount) : Service :=
  {| environment := environment data;
     volumes_field := Some l;
     ports := ports data;
     image := image data |}.

(** The record that the walker registers for a published port. *)
Definition port_record (cfg : Config) (name : str) (host_port : Z)
  : DefaultRecord :=
  {| d_key := variable_from_env cfg (variable_from_port cfg name host_port false);
     d_original_key := Some (variable_from_port cfg name host_port false);
     d_value := VInt host_port;
     d_is_secret := false;
     d_service := name;
     d_secret_path := None;
     d_secret_expr := None;
     d_env_file := None |}.

(** No key is forgotten from one state to a later one. *)
Definition seen_keeps (st st' : State) : Prop :=
  forall k, seen k st = true -> seen k st' = true.

(** Every port of the exposed-ports map has had its variable
    registered. *)
Definition ports_ok (cfg : Config) (st : State) : Prop :=
  forall name p,
    In p (exposed_ports st name) ->
    seen (variable_from_port cfg name p false) st = true.

(** The invariant of the walk, and a step that keeps it. *)
Definition walk_ok (cfg : Config) (st : State) : Prop :=
  registry_ok cfg st /\ ports_ok cfg st.


(** A variable name resolves when a record of the defaults list has it
    as its key. *)
Definition resolves (st : State) (var : str) : Prop :=
  exists r, In r (defaults st) /\ d_key r = var.



(* ------------------------------------------------------------------ *)
(** ** Example inputs *)

(** A configuration with the prefix [app] (closed to [app_] by the
    program), the default secret path template and an empty disk. *)
Definition sample_config : Config :=
  {| opt_defaults_prefix := s "app";
     opt_role_name := s "docker_";
     secret_string_template :=
       [TLit (s "services/"); TRoleName; TLit (s "/"); TServiceName;
        TLit (s "/"); TEnvKey];
     min_secret_length := 12;
     proxy_container := None;
     ext_proxy_net := s "proxy-tier";
     uid := None;
     fs := fun _ => Absent |}.

(** A disk with the one file [./data/app.conf], which has no marker. *)
Definition sample_config_with_file : Config :=
  {| opt_defaults_prefix := s "app";
     opt_role_name := s "docker_";
     secret_string_template := [TEnvKey];
     min_secret_length := 12;
     proxy_container := None;
     ext_proxy_net := s "proxy-tier";
     uid := None;
     fs := fun p => if str_eqb p (s "./data/app.conf")
                    then File (s "listen=8080")
                    else Absent |}.

Definition sample_config_unparsable : Config :=
  {| opt_defaults_prefix := s "app";
     opt_role_name := s "docker_";
     secret_string_template := [TEnvKey];
     min_secret_length := 12;
     proxy_container := None;
     ext_proxy_net := s "proxy-tier";
     uid := None;
     fs := fun p => if str_eqb p (s "app.env") then File (s "FOO")
                    else Absent |}.

Definition sample_raw_service (env_ : option env_form)
  (env_file : option env_file_form) (image_ : str) : RawService :=
  {| r_environment := env_; r_env_file := env_file; r_volumes := None;
     r_ports := None; r_image := Some image_; r_user := None;
     r_networks := None |}.

(** The service [web] of the scenario: one secret variable, the port
    8080 published, the image [nginx:1.25]. *)
Definition sample_web : Service :=
  {| environment := Some [(s "DB_PASSWORD", s "x")];
     volumes_field := Some [];
     ports := [{| published := Some (PInt 8080) |}];
     image := s "nginx:1.25" |}.

(** The scenario: the service [web] in both descriptors. *)
Definition scenario_model : ComposeSpecification :=
  {| services := [(s "web", sample_web)]; top_volumes := None |}.

Definition scenario_final : Descriptor :=
  {| f_services :=
       [(s "web",
         {| r_environment := Some (EnvList [s "DB_PASSWORD=x"]);
            r_env_file := None; r_volumes := None;
            r_ports := Some [s "8080:80"];
            r_image := Some (s "nginx:1.25"); r_user := None;
            r_networks := None |})];
     f_networks := None |}.

(** A descriptor with one service [web] that declares the environment
    variable [releases]; no file is read. *)
Definition releases_clash_model : ComposeSpecification :=
  {| services :=
       [(s "web",
         {| environment := Some [(s "releases", s "stable")];
            volumes_field := Some []; ports := [];
            image := s "nginx:1.25" |})];
     top_volumes := None |}.

Definition releases_clash_final : Descriptor :=
  {| f_services :=
       [(s "web",
         sample_raw_service (Some (EnvDict [(s "releases", s "stable")]))
           None (s "nginx:1.25"))];
     f_networks := None |}.

(** A descriptor whose service [web] names the env file [app.env], and
    a disk where that file holds the line [FOO], which has no ["="]. *)
Definition env_file_model : ComposeSpecification :=
  {| services :=
       [(s "web",
         {| environment := Some [(s "A", s "1")];
            volumes_field := Some []; ports := [];
            image := s "nginx:1.25" |})];
     top_volumes := None |}.

Definition env_file_final : Descriptor :=
  {| f_services :=
       [(s "web",
         sample_raw_service (Some (EnvDict [(s "A", s "1")]))
           (Some (EnvFileOne (s "app.env"))) (s "nginx:1.25"))];
     f_networks := None |}.

(** A descriptor whose service [web] bind-mounts [./data]. *)
Definition bind_model : ComposeSpecification :=
  {| services :=
       [(s "web",
         {| environment := None;
            volumes_field :=
              Some [{| m_type := Bind; m_source := s "./data" |}];
            ports := []; image := s "nginx:1.25" |})];
     top_volumes := None |}.


(* ------------------------------------------------------------------ *)
(** ** The option callback and further vocabulary *)

(** [validate_defaults_prefix]: the value comes back unless
    [re.search(r"[\s-]", value)] finds a whitespace or hyphen character,
    in which case [click.BadParameter] is raised ([None]). *)
Definition validate_defaults_prefix (value : str) : option str :=
  if existsb is_space_or_hyphen value then None else Some value.

(** No character of the text is a whitespace or a hyphen. *)
Definition no_space_or_hyphen (x : str) : Prop :=
  Forall (fun c => is_space_or_hyphen c = false) x.

Definition starts_with_digit (x : str) : bool :=
  match x with
  | c :: _ => is_digit c
  | [] => false
  end.

(** The item ["KEY=VALUE"] of a pair. *)
Definition env_item (kv : str * str) : str := fst kv ++ ch 61 :: snd kv.

(** The text of a file with the env-file marker on its first line. *)
Definition sample_marked_text : str :=
  file_type_env ++ ch 10 :: s "# credentials" ++ ch 10 :: s "USER=admin".

(** A marked env file whose one value holds an ["="]. *)
Definition sample_url_text : str :=
  file_type_env ++ ch 10 :: s "URL=http://h/?a=b".

(** A configuration that names [web] as the proxy container and sets
    the uid 1000. *)
Definition sample_config_proxy : Config :=
  {| opt_defaults_prefix := s "app";
     opt_role_name := s "docker_";
     secret_string_template := [TEnvKey];
     min_secret_length := 12;
     proxy_container := Some (s "web");
     ext_proxy_net := s "proxy-tier";
     uid := Some 1000%Z;
     fs := fun _ => Absent |}.


(** A record as a registration makes it: it has a source key, its key
    is the prefixed normalized source key, and it carries a secret path
    and a lookup expression exactly when it is secret. *)
Definition registered_record (cfg : Config) (r : DefaultRecord) : Prop :=
  exists key,
    d_original_key r = Some key
    /\ d_key r = variable_from_env cfg key
    /\ if d_is_secret r
       then d_secret_path r = Some (get_secret_path cfg (d_service r) key)
            /\ exists expr, d_secret_expr r = Some expr
       else d_secret_path r = None /\ d_secret_expr r = None.

(** Every entry of [services_by_env] lists one service, the owner of the
    one record of the key. *)
Definition owners_ok (st : State) : Prop :=
  forall k l,
    PyDict.get k (services_by_env st) = Some l ->
    exists r, l = [d_service r] /\ records_of k (defaults st) = [r].

(** The backup paths that a mount adds. *)
Definition mount_backup_paths (vols : option (PyDict.t (option Volume)))
  (vol : Mount) : list str :=
  match m_type vol with
  | Bind => [m_source vol]
  | NamedVolume =>
      match vols with
      | Some d =>
          match PyDict.get (m_source vol) d with
          | Some (Some v) => [s "/var/lib/docker/volumes/" ++ v_name v]
          | _ => []
          end
      | None => []
      end
  | OtherMount => []
  end.

(** A disk where [./conf.env] has the marker, the line [A=1] and the
    line [BROKEN]. *)
Definition sample_config_broken_file : Config :=
  {| opt_defaults_prefix := s "app";
     opt_role_name := s "docker_";
     secret_string_template := [TEnvKey];
     min_secret_length := 12;
     proxy_container := None;
     ext_proxy_net := s "proxy-tier";
     uid := None;
     fs := fun p =>
             if str_eqb p (s "./conf.env")
             then File (file_type_env ++ ch 10 :: s "A=1" ++ ch 10 :: s "BROKEN")
             else Absent |}.

(** The value of the releases record for the image entries of a
    state. *)
Definition releases_value (st : State) : PyDict.t str :=
  fold_left
    (fun acc kv => PyDict.set (i_service (snd kv)) (i_tag (snd kv)) acc)
    (images_tags st) [].

(* ================================================================== *)
(** * Properties *)

Lemma str_eqb_eq (a b : str) : str_eqb a b = true <-> a = b.
Proof.
  unfold str_eqb. destruct (list_eq_dec ascii_dec a b); split; congruence.
Qed.

Lemma str_eqb_refl (a : str) : str_eqb a a = true.
Proof. now apply str_eqb_eq. Qed.

Lemma str_eqb_neq (a b : str) : str_eqb a b = false <-> a <> b.
Proof.
  unfold str_eqb. destruct (list_eq_dec ascii_dec a b); split; congruence.
Qed.

(** ** Characters *)

Ltac by_cases_on_char c :=
  destruct c as [[] [] [] [] [] [] [] []]; vm_compute; reflexivity.

Lemma lower_char_idem (c : ascii) : lower_char (lower_char c) = lower_char c.
Proof. by_cases_on_char c. Qed.

Lemma lower_char_sep (c : ascii) :
  is_space_or_hyphen (lower_char c) = is_space_or_hyphen c.
Proof. by_cases_on_char c. Qed.

Lemma lower_char_rbracket (c : ascii) :
  is_rbracket (lower_char c) = is_rbracket c.
Proof. by_cases_on_char c. Qed.

Lemma lower_idem (x : str) : lower (lower x) = lower x.
Proof.
  unfold lower. rewrite map_map. apply map_ext. exact lower_char_idem.
Qed.

(** ** Key normalizer *)

Lemma sub_cons2 (c d : ascii) (t : str) :
  sub_space_hyphen_bracket (c :: d :: t) =
  if (is_space_or_hyphen c && is_rbracket d)%bool
  then underscore :: sub_space_hyphen_bracket t
  else c :: sub_space_hyphen_bracket (d :: t).
Proof. reflexivity. Qed.

Lemma head_of_sub (x : str) :
  head_is_rbracket (sub_space_hyphen_bracket x) = true ->
  head_is_rbracket x = true.
Proof.
  destruct x as [|c [|d t]]; try (simpl; congruence).
  rewrite sub_cons2.
  destruct (is_space_or_hyphen c && is_rbracket d)%bool; simpl; auto.
  discriminate.
Qed.

Lemma no_match_sub_bounded (n : nat) :
  forall x, List.length x <= n -> no_match (sub_space_hyphen_bracket x) = true.
Proof.
  induction n as [|n IH]; intros x Hx.
  - destruct x; [reflexivity | simpl in Hx; lia].
  - destruct x as [|c [|d t]];
      [reflexivity | cbn; now rewrite andb_false_r | ].
    rewrite sub_cons2.
    destruct (is_space_or_hyphen c && is_rbracket d)%bool eqn:E.
    + change (no_match (underscore :: ?r)) with (no_match r).
      apply IH. simpl in Hx. lia.
    + cbn [no_match]. rewrite IH by (simpl in *; lia).
      rewrite andb_true_r.
      destruct (head_is_rbracket (sub_space_hyphen_bracket (d :: t))) eqn:H.
      * apply head_of_sub in H. simpl in H. rewrite H in E.
        rewrite andb_true_r in *. now rewrite E.
      * now rewrite andb_false_r.
Qed.

Lemma no_match_sub (x : str) : no_match (sub_space_hyphen_bracket x) = true.
Proof. apply (no_match_sub_bounded (List.length x)). lia. Qed.

Lemma sub_without_match (x : str) :
  no_match x = true -> sub_space_hyphen_bracket x = x.
Proof.
  induction x as [|c rest IH]; [reflexivity|].
  destruct rest as [|d t]; [reflexivity|].
  intros H. cbn [no_match] in H. apply andb_true_iff in H as [H1 H2].
  rewrite sub_cons2. cbn [head_is_rbracket] in H1.
  apply negb_true_iff in H1. rewrite H1. now rewrite IH.
Qed.

Lemma no_match_lower (x : str) : no_match (lower x) = no_match x.
Proof.
  induction x as [|c rest IH]; [reflexivity|].
  cbn [lower map no_match]. fold (lower rest). rewrite IH, lower_char_sep.
  destruct rest as [|d t]; [reflexivity|].
  cbn [lower map head_is_rbracket]. now rewrite lower_char_rbracket.
Qed.

(** C4. The key normalizer is idempotent: normalizing the result of a
    normalization gives it back, for every string. *)
Theorem normalize_key_and_name_idempotent (name : str) :
  normalize_key_and_name (normalize_key_and_name name)
  = normalize_key_and_name name.
Proof.
  unfold normalize_key_and_name.
  rewrite (sub_without_match (lower (sub_space_hyphen_bracket name))).
  - apply lower_idem.
  - rewrite no_match_lower. apply no_match_sub.
Qed.

(** C5. On the name ["my-role"] the normalizer returns ["my-role"]: the
    hyphen stays, since the pattern asks for a closing bracket after it;
    the specified result is ["my_role"]. *)
Theorem normalize_key_and_name_keeps_hyphen :
  normalize_key_and_name (s "my-role") = s "my-role"
  /\ spec_normalize (s "my-role") = s "my_role"
  /\ normalize_key_and_name (s "my-role") <> spec_normalize (s "my-role").
Proof. repeat split; vm_compute; congruence. Qed.

(** ** Regular expressions: the search decides the language *)

Module ReFacts.

Import Re.

Lemma nullable_sound ic r k : nullable r k = true -> Lang ic r [] k.
Proof.
  induction r; simpl; intros H; try discriminate.
  - constructor.
  - now constructor.
  - apply andb_true_iff in H as [H1 H2].
    change (@nil ascii) with (@nil ascii ++ []). constructor; simpl; auto.
  - apply orb_true_iff in H as [H|H];
      [apply L_AltL | apply L_AltR]; auto.
  - apply L_Star0.
Qed.

Lemma nullable_complete ic r w k :
  Lang ic r w k -> w = [] -> nullable r k = true.
Proof.
  induction 1; intros E; simpl; try discriminate; auto.
  - apply app_eq_nil in E as [-> ->]. simpl in *.
    rewrite IHLang1, IHLang2; auto.
  - rewrite IHLang; auto.
  - rewrite IHLang; auto using orb_true_r.
Qed.

Lemma deriv_sound ic r :
  forall w k c, Lang ic (deriv ic r c (w ++ k)) w k -> Lang ic r (c :: w) k.
Proof.
  induction r as [| |a| | |r1 IH1 r2 IH2|r1 IH1 r2 IH2|r1 IH1];
    intros w k c H; simpl in H.
  - inversion H.
  - inversion H.
  - destruct (char_eq ic a c) eqn:E; inversion H; subst. now constructor.
  - destruct (is_newline c) eqn:E; inversion H; subst. now constructor.
  - inversion H.
  - inversion H as [| | | | | ? ? ? ? HL | ? ? ? ? HR | |]; subst.
    + inversion HL as [| | | | ? ? w1 w2 ? H1 H2 | | | |]; subst.
      rewrite <- app_assoc in H1. apply IH1 in H1.
      change (c :: w1 ++ w2) with ((c :: w1) ++ w2). now constructor.
    + destruct (nullable r1 (c :: w ++ k)) eqn:N; [|inversion HR].
      apply IH2 in HR. apply (nullable_sound ic) in N.
      change (c :: w) with ([] ++ c :: w). now constructor.
  - inversion H; subst; [apply L_AltL | apply L_AltR]; auto.
  - inversion H as [| | | | ? ? w1 w2 ? H1 H2 | | | |]; subst.
    rewrite <- app_assoc in H1. apply IH1 in H1.
    change (c :: w1 ++ w2) with ((c :: w1) ++ w2). now apply L_StarS.
Qed.

Lemma deriv_complete ic r x k :
  Lang ic r x k ->
  forall c w, x = c :: w -> Lang ic (deriv ic r c (w ++ k)) w k.
Proof.
  induction 1; intros c0 w0 E; simpl; try discriminate.
  - injection E as -> <-. rewrite H. constructor.
  - injection E as -> <-. rewrite H. constructor.
  - destruct w1 as [|c1 w1]; simpl in E.
    + subst w2. apply L_AltR.
      pose proof (nullable_complete _ _ _ _ H eq_refl) as N.
      simpl in N. rewrite N. now apply IHLang2.
    + injection E as -> <-. apply L_AltL. rewrite <- app_assoc.
      constructor; auto.
  - apply L_AltL; auto.
  - apply L_AltR; auto.
  - destruct w1 as [|c1 w1]; simpl in E.
    + subst w2. now apply IHLang2.
    + injection E as -> <-. rewrite <- app_assoc.
      constructor; auto.
Qed.

Lemma match_here_spec ic x :
  forall r, match_here ic r x = true <->
            exists w k, x = w ++ k /\ Lang ic r w k.
Proof.
  induction x as [|c x IH]; intros r; simpl.
  - rewrite orb_false_r. split.
    + intros H. exists [], []. split; auto. now apply nullable_sound.
    + intros (w & k & E & H). symmetry in E.
      apply app_eq_nil in E as [-> ->].
      now apply (nullable_complete _ _ _ _ H).
  - rewrite orb_true_iff, IH. split.
    + intros [H | (w & k & -> & H)].
      * exists [], (c :: x). split; auto. now apply nullable_sound.
      * exists (c :: w), k. split; auto. now apply deriv_sound.
    + intros (w & k & E & H). destruct w as [|c' w]; simpl in E.
      * left. subst k. now apply (nullable_complete _ _ _ _ H).
      * injection E as <- ->. right. exists w, k. split; auto.
        now apply (deriv_complete _ _ _ _ H).
Qed.

(** [search] is true exactly when some piece of the subject is in the
    language of the pattern. *)
Lemma search_spec ic r x :
  search ic r x = true <->
  exists p w k, x = p ++ w ++ k /\ Lang ic r w k.
Proof.
  induction x as [|c x IH]; simpl.
  - rewrite orb_false_r, orb_false_r. split.
    + intros H. exists [], [], []. split; auto. now apply nullable_sound.
    + intros (p & w & k & E & H). symmetry in E.
      apply app_eq_nil in E as [-> E].
      apply app_eq_nil in E as [-> ->].
      now apply (nullable_complete _ _ _ _ H).
  - change (nullable r (c :: x) || match_here ic (deriv ic r c x) x)%bool
      with (match_here ic r (c :: x)).
    rewrite orb_true_iff, IH, match_here_spec. split.
    + intros [(w & k & E & H) | (p & w & k & -> & H)].
      * exists [], w, k. auto.
      * exists (c :: p), w, k. auto.
    + intros (p & w & k & E & H). destruct p as [|c' p]; simpl in E.
      * left. eauto.
      * injection E as <- ->. right. eauto.
Qed.

Lemma Lang_alts ic rs w k :
  rs <> [] ->
  (Lang ic (alts rs) w k <-> exists r, In r rs /\ Lang ic r w k).
Proof.
  induction rs as [|r rs IH]; [congruence|]. intros _.
  destruct rs as [|r' rs].
  - simpl. split; [eauto | intros (r0 & [<-|[]] & H); auto].
  - change (alts (r :: r' :: rs)) with (Alt r (alts (r' :: rs))). split.
    + intros H. inversion H; subst.
      * exists r. simpl; auto.
      * apply IH in H4; [|congruence]. destruct H4 as (r0 & Hin & H0).
        exists r0. simpl in *; auto.
    + intros (r0 & [<-|Hin] & H0).
      * now apply L_AltL.
      * apply L_AltR. apply IH; [congruence|]. eauto.
Qed.

(** Searching the joined patterns is searching one of them. *)
Lemma search_alts ic rs x :
  rs <> [] ->
  (search ic (alts rs) x = true <->
   exists r, In r rs /\ search ic r x = true).
Proof.
  intros Hne. rewrite search_spec. split.
  - intros (p & w & k & E & H). apply Lang_alts in H; auto.
    destruct H as (r & Hin & H). exists r. split; auto.
    apply search_spec. eauto.
  - intros (r & Hin & H). apply search_spec in H.
    destruct H as (p & w & k & E & H). exists p, w, k. split; auto.
    apply Lang_alts; eauto.
Qed.

Lemma Lang_lit w :
  forall u k, Lang true (lit w) u k <-> lower u = lower w.
Proof.
  induction w as [|c w IH]; intros u k; simpl.
  - split.
    + intros H. now inversion H.
    + intros H. destruct u; [constructor | discriminate].
  - split.
    + intros H. inversion H as [| | | | ? ? w1 w2 ? H1 H2 | | | |]; subst.
      inversion H1; subst. apply IH in H2. simpl.
      unfold char_eq in *. apply Ascii.eqb_eq in H3. congruence.
    + intros H. destruct u as [|c' u]; [discriminate|].
      simpl in H. injection H as Hc Hu.
      change (c' :: u) with ([c'] ++ u). constructor.
      * constructor. unfold char_eq. apply Ascii.eqb_eq. congruence.
      * now apply IH.
Qed.

Lemma at_end_spec k :
  at_end k = true <-> k = [] \/ k = [ch 10].
Proof.
  destruct k as [|c [|d k]]; simpl.
  - intuition.
  - unfold is_newline, code. rewrite N.eqb_eq. split.
    + intros H. right. f_equal.
      rewrite <- (ascii_N_embedding c), H. reflexivity.
    + intros [H|H]; [discriminate | now injection H as ->].
  - split; [discriminate | intros [H|H]; discriminate].
Qed.

End ReFacts.

(** ** Secret classifier *)

Lemma startswith_spec (p : str) :
  forall x, startswith x p = true <-> exists r, x = p ++ r.
Proof.
  induction p as [|a p IH]; intros x; simpl.
  - split; [intros _; now exists x | reflexivity].
  - destruct x as [|b x].
    + split; [discriminate | intros (r & H); discriminate].
    + rewrite andb_true_iff, Ascii.eqb_eq, IH. split.
      * intros (-> & r & ->). eauto.
      * intros (r & H). injection H as -> ->. eauto.
Qed.

Lemma endswith_spec (x p : str) :
  endswith x p = true <-> exists q, x = q ++ p.
Proof.
  unfold endswith. rewrite startswith_spec. split.
  - intros (r & H). exists (rev r).
    rewrite <- (rev_involutive x), H, rev_app_distr.
    now rewrite rev_involutive.
  - intros (q & ->). exists (rev q). apply rev_app_distr.
Qed.

Lemma secret_words_lower (w : str) : In w secret_words -> lower w = w.
Proof.
  intros H. repeat (destruct H as [<-|H]; [reflexivity|]). destruct H.
Qed.

Lemma ends_in_secret_word_iff (key : str) :
  ends_in_secret_word key = true <->
  exists p u w, key = p ++ u /\ In w secret_words /\ lower u = lower w.
Proof.
  unfold ends_in_secret_word. rewrite existsb_exists. split.
  - intros (w & Hin & H). apply endswith_spec in H as (q & H).
    unfold lower in H. apply map_eq_app in H as (p & u & -> & _ & Hu).
    exists p, u, w. repeat split; auto.
    rewrite (secret_words_lower w Hin). exact Hu.
  - intros (p & u & w & -> & Hin & Hu). exists w. split; auto.
    apply endswith_spec. exists (lower p).
    unfold lower at 1 2. rewrite map_app. fold (lower u).
    now rewrite Hu, (secret_words_lower w Hin).
Qed.

Lemma Lang_before_eol (ic : bool) (r : Re.regex) (u k : str) :
  Re.Lang ic (Re.Cat r Re.Eol) u k <->
  Re.Lang ic r u k /\ Re.at_end k = true.
Proof.
  split.
  - intros H.
    inversion H as [| | | | ? ? w1 w2 ? H1 H2 | | | |]; subst.
    inversion H2; subst. now rewrite app_nil_r.
  - intros (Hu & Hk). rewrite <- (app_nil_r u).
    constructor; [assumption | now constructor].
Qed.

Lemma Lang_patt (u k : str) :
  Re.Lang true patt u k <->
  (exists w, In w secret_words /\ lower u = lower w) /\ Re.at_end k = true.
Proof.
  unfold patt. rewrite Lang_before_eol.
  assert (Hne : map Re.lit secret_words <> []) by discriminate.
  rewrite (ReFacts.Lang_alts true (map Re.lit secret_words) u k Hne).
  split.
  - intros ((r & Hin & Hr) & Hk). split; auto.
    apply in_map_iff in Hin as (w & <- & Hw).
    apply ReFacts.Lang_lit in Hr. eauto.
  - intros ((w & Hw & Hu) & Hk). split; auto.
    exists (Re.lit w). split; [now apply in_map|].
    now apply ReFacts.Lang_lit.
Qed.

(** The fixed pattern finds a key that ends in a secret word, or that
    ends in one followed by a final line feed, and no other. *)
Lemma search_patt (key : str) :
  Re.search true patt key = true <->
  ends_in_secret_word key = true
  \/ exists body, key = body ++ [ch 10] /\ ends_in_secret_word body = true.
Proof.
  rewrite ReFacts.search_spec. split.
  - intros (p & u & k & -> & H). apply Lang_patt in H as ((w & Hw & Hu) & Hk).
    apply ReFacts.at_end_spec in Hk as [-> | ->].
    + left. apply ends_in_secret_word_iff. exists p, u, w.
      rewrite app_nil_r. auto.
    + right. exists (p ++ u). split; [now rewrite app_assoc|].
      apply ends_in_secret_word_iff. exists p, u, w. auto.
  - intros [H | (body & -> & H)];
      apply ends_in_secret_word_iff in H as (p & u & w & -> & Hw & Hu).
    + exists p, u, []. split; [now rewrite app_nil_r|].
      apply Lang_patt. split; eauto.
    + exists p, u, [ch 10]. split; [now rewrite app_assoc|].
      apply Lang_patt. split; eauto.
Qed.

(** C3, as the code has it.  The classifier is true exactly when the key
    ends, whatever the case, in one of the six secret words, or ends in
    one of them followed by one final line feed (the [$] of the pattern
    also holds just before a line feed that ends the key), or when an
    extra pattern is supplied and is found somewhere in the key.  The
    service name and the value play no part. *)
Theorem is_secret_spec (service_name key value : str)
  (secret_seqs : option (list Re.regex)) :
  is_secret service_name key value secret_seqs = true <->
  ends_in_secret_word key = true
  \/ (exists body,
        key = body ++ [ch 10] /\ ends_in_secret_word body = true)
  \/ (exists ps p,
        secret_seqs = Some ps /\ In p ps /\ Re.search false p key = true).
Proof.
  unfold is_secret.
  destruct (Re.search true patt key) eqn:E.
  - apply search_patt in E. intuition.
  - assert (N : ~ (ends_in_secret_word key = true
                   \/ exists body, key = body ++ [ch 10]
                                   /\ ends_in_secret_word body = true)).
    { intros H. apply search_patt in H. congruence. }
    destruct secret_seqs as [[|p ps]|].
    + split; [discriminate|].
      intros [H|[H|(ps & p & Hs & Hin & _)]]; try tauto.
      injection Hs as <-. destruct Hin.
    + rewrite ReFacts.search_alts by discriminate. split.
      * intros (r & Hin & H). right; right. exists (p :: ps), r. auto.
      * intros [H|[H|(ps' & r & Hs & Hin & H)]]; try tauto.
        injection Hs as <-. eauto.
    + split; [discriminate|].
      intros [H|[H|(ps & p & Hs & _)]]; try tauto. discriminate.
Qed.

(** C3, as stated, fails: the key made of "token" and a line feed does
    not end in a secret word and comes with no extra pattern, and the
    classifier is true on it. *)
Lemma is_secret_final_newline :
  ~ (forall service_name key value,
        ends_in_secret_word key = false ->
        is_secret service_name key value None = false).
Proof.
  intros H.
  specialize (H (s "web") (s "token" ++ [ch 10]) (s "x") eq_refl).
  vm_compute in H. discriminate.
Qed.

(** ** Dictionaries *)

Lemma get_set_same {V} (k : str) (v : V) (d : PyDict.t V) :
  PyDict.get k (PyDict.set k v d) = Some v.
Proof.
  induction d as [|[k' v'] d IH]; simpl.
  - now rewrite str_eqb_refl.
  - destruct (str_eqb k' k) eqn:E; simpl; rewrite E; auto.
Qed.

Lemma get_set_other {V} (k k' : str) (v : V) (d : PyDict.t V) :
  k <> k' -> PyDict.get k' (PyDict.set k v d) = PyDict.get k' d.
Proof.
  intros Hne. induction d as [|[k0 v0] d IH]; simpl.
  - apply str_eqb_neq in Hne. now rewrite Hne.
  - destruct (str_eqb k0 k) eqn:E; simpl.
    + apply str_eqb_eq in E. subst k0.
      apply str_eqb_neq in Hne. now rewrite Hne.
    + destruct (str_eqb k0 k'); auto.
Qed.


Lemma In_get {V} (k : str) (v : V) (d : PyDict.t V) :
  In (k, v) d -> exists v', PyDict.get k d = Some v'.
Proof.
  induction d as [|[k' v'] d IH]; simpl; [tauto|].
  intros [H|H].
  - injection H as -> ->. rewrite str_eqb_refl. eauto.
  - destruct (str_eqb k' k); eauto.
Qed.

(** ** Variable registry *)

Lemma seen_with_service_of_env_same k name st :
  seen k (with_service_of_env k name st) = true.
Proof.
  unfold seen, with_service_of_env; simpl. rewrite get_set_same.
  destruct (PyDict.get k (services_by_env st)) as [[|x l]|]; reflexivity.
Qed.

Lemma seen_with_service_of_env_other k k' name st :
  k <> k' -> seen k' (with_service_of_env k name st) = seen k' st.
Proof.
  intros H. unfold seen, with_service_of_env; simpl.
  now rewrite get_set_other.
Qed.

(** What a registration does: nothing for a key that was seen;
    otherwise one record is appended and the key is marked. *)
Lemma add_to_defaults_cases cfg key val name sec ef st st' :
  add_to_defaults cfg key val name sec ef st = Ok st' ->
  (seen key st = true /\ st' = st)
  \/ (seen key st = false /\
      exists r st1,
        st' = with_service_of_env key name (with_default r st1)
        /\ defaults st1 = defaults st
        /\ services_by_env st1 = services_by_env st
        /\ exposed_ports_by_service st1 = exposed_ports_by_service st
        /\ backup_paths st1 = backup_paths st
        /\ d_key r = variable_from_env cfg key
        /\ d_original_key r = Some key
        /\ d_value r = val /\ d_is_secret r = sec /\ d_service r = name).
Proof.
  unfold add_to_defaults. destruct (seen key st) eqn:E.
  - intros H. injection H as <-. now left.
  - intros H. right. split; auto.
    destruct (if sec then _ else _) as [secret|]; [|discriminate].
    simpl in H.
    destruct ef as [[|c f]|]; simpl in H.
    + injection H as <-. eexists _, st. repeat split.
    + destruct (file_name_id (c :: f)) as [id|]; [|discriminate].
      simpl in H. injection H as <-.
      eexists _, (with_env_file (c :: f) id st). repeat split.
    + injection H as <-. eexists _, st. repeat split.
Qed.

Lemma registry_ok_init cfg : registry_ok cfg init_state.
Proof. intros k. reflexivity. Qed.

Lemma registered_for_eq key r :
  registered_for key r = true <-> d_original_key r = Some key.
Proof.
  unfold registered_for. destruct (d_original_key r) as [k|].
  - rewrite str_eqb_eq. split; congruence.
  - split; discriminate.
Qed.

Lemma add_to_defaults_ok cfg key val name sec ef st st' :
  add_to_defaults cfg key val name sec ef st = Ok st' ->
  registry_ok cfg st -> registry_ok cfg st'.
Proof.
  intros H Hok. apply add_to_defaults_cases in H as [[_ ->]|[E H]]; auto.
  destruct H as (r & st1 & -> & Hd & Hs & _ & _ & Hk & Ho & _).
  intros k. destruct (list_eq_dec ascii_dec key k) as [<-|Hne].
  - rewrite seen_with_service_of_env_same.
    specialize (Hok key). rewrite E in Hok.
    exists r. split; auto.
    simpl. rewrite Hd. unfold records_of in *. rewrite filter_app, Hok.
    simpl. apply registered_for_eq in Ho. now rewrite Ho.
  - rewrite seen_with_service_of_env_other by auto.
    specialize (Hok k).
    assert (Hseen : seen k (with_default r st1) = seen k st).
    { unfold seen. simpl. now rewrite Hs. }
    assert (Hrec : records_of k (defaults (with_default r st1))
                   = records_of k (defaults st)).
    { simpl. rewrite Hd. unfold records_of. rewrite filter_app. simpl.
      destruct (registered_for k r) eqn:R.
      - apply registered_for_eq in R. congruence.
      - apply app_nil_r. }
    simpl in Hrec. rewrite Hseen. simpl. now rewrite Hrec.
Qed.

(** C2. In a consistent registry, when a source key is registered and
    then registered again, with any service name and any value, the
    second registration succeeds and leaves exactly one record for the
    key in the defaults list; when the first registration was the first
    for the key, that record carries its value and its service. *)
Theorem add_to_defaults_twice cfg key v1 n1 b1 e1 v2 n2 b2 e2 st st1 :
  registry_ok cfg st ->
  add_to_defaults cfg key v1 n1 b1 e1 st = Ok st1 ->
  exists st2 r,
    add_to_defaults cfg key v2 n2 b2 e2 st1 = Ok st2
    /\ records_of key (defaults st2) = [r]
    /\ defaults st2 = defaults st1
    /\ (seen key st = false ->
        defaults st2 = defaults st ++ [r]
        /\ d_original_key r = Some key
        /\ d_value r = v1 /\ d_service r = n1 /\ d_is_secret r = b1).
Proof.
  intros Hok H1.
  pose proof (add_to_defaults_ok _ _ _ _ _ _ _ _ H1 Hok) as Hok1.
  assert (Hseen : seen key st1 = true).
  { apply add_to_defaults_cases in H1 as [[E ->]|[_ H]]; auto.
    destruct H as (r & st0 & -> & _).
    apply seen_with_service_of_env_same. }
  specialize (Hok1 key). rewrite Hseen in Hok1.
  destruct Hok1 as (r & Hr & _).
  exists st1, r. unfold add_to_defaults at 1. rewrite Hseen.
  split; [reflexivity|]. split; [exact Hr|]. split; [reflexivity|].
  intros E. apply add_to_defaults_cases in H1 as [[E' _]|[_ H]];
    [congruence|].
  destruct H as (r0 & st0 & -> & Hd & _ & _ & _ & _ & Ho & Hv & Hb & Hn).
  simpl in Hr |- *. rewrite Hd in Hr |- *.
  specialize (Hok key). rewrite E in Hok.
  unfold records_of in *. rewrite filter_app, Hok in Hr. simpl in Hr.
  pose proof Ho as Ho'. apply registered_for_eq in Ho'.
  rewrite Ho' in Hr. injection Hr as <-. auto.
Qed.

(** The two registrations of C2 run on the empty registry. *)
Lemma add_to_defaults_twice_witness :
  exists st2 r,
    add_to_defaults sample_config (s "DB_HOST") (VStr (s "other")) (s "db")
      false None
      (with_service_of_env (s "DB_HOST") (s "web")
         (with_default
            {| d_key := s "app_db_host"; d_original_key := Some (s "DB_HOST");
               d_value := VStr (s "pg"); d_is_secret := false;
               d_service := s "web"; d_secret_path := None;
               d_secret_expr := None; d_env_file := None |} init_state))
    = Ok st2
    /\ records_of (s "DB_HOST") (defaults st2) = [r]
    /\ d_value r = VStr (s "pg").
Proof.
  destruct (add_to_defaults_twice sample_config (s "DB_HOST")
              (VStr (s "pg")) (s "web") false None
              (VStr (s "other")) (s "db") false None init_state _
              (registry_ok_init sample_config) eq_refl)
    as (st2 & r & H2 & Hr & _ & Hv).
  exists st2, r. repeat split; auto. apply Hv. reflexivity.
Defined.

(** ** Image tag *)

Lemma split_on_absent (sep : ascii) (x : str) :
  ~ In sep x -> split_on sep x = [x].
Proof.
  induction x as [|c x IH]; intros H; simpl; [reflexivity|].
  destruct (Ascii.eqb c sep) eqn:E.
  - apply Ascii.eqb_eq in E. subst. elim H. now left.
  - rewrite IH; [reflexivity|]. intros Hin. apply H. now right.
Qed.


(** ** Releases record *)

(** C10. The releases record is appended whatever the registry has seen,
    and the seen keys stay as they are; on the descriptor whose service
    declares the environment variable [releases], the run ends with two
    records of the same key in the defaults list. *)
Theorem add_releases_to_defaults_unconditional :
  (forall cfg st,
      exists r,
        defaults (add_releases_to_defaults cfg st) = defaults st ++ [r]
        /\ d_key r = variable_from_env cfg releases_key
        /\ d_original_key r = None
        /\ services_by_env (add_releases_to_defaults cfg st)
           = services_by_env st)
  /\ exists out r1 r2,
      main sample_config releases_clash_model releases_clash_final = Ok out
      /\ defaults (bootstrap_data out) = [r1; r2]
      /\ d_original_key r1 = Some (s "releases")
      /\ d_original_key r2 = None
      /\ d_key r1 = s "app_releases"
      /\ d_key r2 = s "app_releases".
Proof.
  split.
  - intros cfg st. eexists. repeat split.
  - eexists _, _, _. split; [vm_compute; reflexivity|]. repeat split.
Qed.

(** ** Env files of a service *)

(** The first env file of a service with an environment is read with no
    guard: when it is absent, the walk of the service raises. *)
Lemma handle_svc_environment_absent_file cfg final name svc st env raw fp rest :
  environment svc = Some env ->
  PyDict.get name (f_services final) = Some raw ->
  env_file_list (r_env_file raw) = fp :: rest ->
  fs cfg fp = Absent ->
  handle_svc_environment cfg final name svc st = Raise FileNotFoundError.
Proof.
  intros He Hr Hl Hf. unfold handle_svc_environment, lookup.
  rewrite He, Hr. simpl. rewrite Hl. simpl.
  unfold index_env_file. now rewrite Hf.
Qed.

(** C6. The run on the descriptor whose service names the env file
    [app.env] raises when the file is absent and raises when the file
    holds a line without ["="]; the scan of a bind mount at the same path
    returns without error in both cases. *)
Theorem main_aborts_on_env_file :
  main sample_config env_file_model env_file_final = Raise FileNotFoundError
  /\ main sample_config_unparsable env_file_model env_file_final
     = Raise ValueError
  /\ handle_svc_env_file sample_config (s "web") (s "app.env") init_state
     = Ok init_state
  /\ handle_svc_env_file sample_config_unparsable (s "web") (s "app.env")
       init_state
     = Ok init_state.
Proof. repeat split; vm_compute; reflexivity. Qed.

(** ** Loops *)

Lemma for_each_app {A St : Type} (body : St -> A -> result St) l1 l2 st :
  for_each body (l1 ++ l2) st
  = (st' <- for_each body l1 st ;; for_each body l2 st').
Proof.
  revert st. induction l1 as [|a l1 IH]; intros st; simpl; [reflexivity|].
  destruct (body st a); simpl; auto.
Qed.

(** A loop keeps a preorder that each round keeps, and what a round
    establishes for its item still holds at the end when later rounds
    cannot undo it. *)
Lemma for_each_post {A St : Type} (body : St -> A -> result St)
  (R : St -> St -> Prop) (Q : A -> St -> Prop) :
  (forall st, R st st) ->
  (forall a b c, R a b -> R b c -> R a c) ->
  (forall a st st', Q a st -> R st st' -> Q a st') ->
  forall items,
    (forall st a st',
        In a items -> body st a = Ok st' -> R st st' /\ Q a st') ->
    forall st st',
      for_each body items st = Ok st' ->
      R st st' /\ forall a, In a items -> Q a st'.
Proof.
  intros Hrefl Htrans Hstable.
  induction items as [|a items IH]; intros Hbody st st' H; simpl in H.
  - injection H as <-. split; [apply Hrefl | intros a []].
  - destruct (body st a) as [st1|] eqn:E; [|discriminate]. simpl in H.
    destruct (Hbody st a st1 (or_introl eq_refl) E) as [HR HQ].
    destruct (IH (fun st0 a0 st0' Hin => Hbody st0 a0 st0' (or_intror Hin))
                _ _ H) as [HR' HQ'].
    split; [eapply Htrans; eauto|].
    intros a0 [<-|Hin]; [eapply Hstable; eauto | auto].
Qed.

(** ** Bind-mounted files *)

Lemma add_to_defaults_backup_paths cfg key val name sec ef st st' :
  add_to_defaults cfg key val name sec ef st = Ok st' ->
  backup_paths st' = backup_paths st
  /\ volume_defaults st' = volume_defaults st.
Proof.
  unfold add_to_defaults. destruct (seen key st).
  - intros H. now injection H as <-.
  - destruct (if sec then _ else _) as [secret|]; [|discriminate].
    cbn [bind]. destruct ef as [[|c f]|]; cbn [bind].
    + intros H. now injection H as <-.
    + destruct (file_name_id (c :: f)) as [id|]; [|discriminate].
      cbn [bind]. intros H. now injection H as <-.
    + intros H. now injection H as <-.
Qed.

Lemma handle_svc_env_file_backup_paths cfg name path st st' :
  handle_svc_env_file cfg name path st = Ok st' ->
  backup_paths st' = backup_paths st
  /\ volume_defaults st' = volume_defaults st.
Proof.
  assert (L : forall env ef st0 st1,
             for_each (handle_key_value cfg name ef) env st0 = Ok st1 ->
             backup_paths st1 = backup_paths st0
             /\ volume_defaults st1 = volume_defaults st0).
  { intros env ef st0 st1 H.
    apply (for_each_post (handle_key_value cfg name ef)
             (fun a b => backup_paths b = backup_paths a
                         /\ volume_defaults b = volume_defaults a)
             (fun _ _ => True)) in H; [tauto | auto | | auto |].
    - intros a b c [E1 E2] [E3 E4]. split; congruence.
    - intros a [key value] b _ E. split; [|exact I].
      unfold handle_key_value, handle_secret_env_var, handle_env_var in E.
      destruct (is_secret name key value None);
        eapply add_to_defaults_backup_paths; eauto. }
  unfold handle_svc_env_file.
  destruct (fs cfg path) as [| |content]; cbn [read_text bind].
  - intros H. now injection H as <-.
  - intros H. now injection H as <-.
  - destruct (env_from_text content false) as [env|].
    + apply L.
    + intros H. now injection H as <-.
Qed.

Lemma handle_svc_volume_backup_paths cfg name vols st vol st' :
  handle_svc_volume cfg name vols st vol = Ok st' ->
  backup_paths st' = backup_paths st ++ mount_backup_paths vols vol.
Proof.
  unfold handle_svc_volume, mount_backup_paths. destruct (m_type vol).
  - destruct (handle_svc_env_file cfg name (m_source vol)
                (with_backup_path (m_source vol) st)) as [st1|] eqn:E;
      [|discriminate].
    cbn [bind]. intros H. injection H as <-.
    apply handle_svc_env_file_backup_paths in E as [E _].
    cbn [backup_paths with_volume_default]. now rewrite E.
  - destruct vols as [d|]; [|discriminate]. unfold lookup.
    destruct (PyDict.get (m_source vol) d) as [[v|]|]; try discriminate.
    cbn [bind]. intros H. injection H as <-. reflexivity.
  - intros H. injection H as <-. now rewrite app_nil_r.
Qed.

Lemma for_each_volume_backup_paths cfg name vols mounts :
  forall st st',
    for_each (handle_svc_volume cfg name vols) mounts st = Ok st' ->
    backup_paths st'
    = backup_paths st ++ flat_map (mount_backup_paths vols) mounts.
Proof.
  induction mounts as [|vol mounts IH]; intros st st' H; cbn [for_each] in H.
  - injection H as <-. cbn. now rewrite app_nil_r.
  - destruct (handle_svc_volume cfg name vols st vol) as [st1|] eqn:E;
      [|discriminate].
    cbn [bind] in H. apply IH in H.
    apply handle_svc_volume_backup_paths in E.
    rewrite H, E. cbn [flat_map]. now rewrite app_assoc.
Qed.

(** One bind mount whose file has no marker on its first line. *)
Lemma handle_unmarked_mount cfg name vols st vol content :
  m_type vol = Bind ->
  fs cfg (m_source vol) = File content ->
  first_line_is_marked content = false ->
  exists st',
    handle_svc_volume cfg name vols st vol = Ok st'
    /\ defaults st' = defaults st
    /\ services_by_env st' = services_by_env st
    /\ backup_paths st' = backup_paths st ++ [m_source vol].
Proof.
  intros Hb Hf Hm. unfold handle_svc_volume, handle_svc_env_file.
  rewrite Hb, Hf. simpl.
  assert (E : env_from_text content false = Ok []).
  { unfold env_from_text, iterate. unfold first_line_is_marked in Hm.
    destruct (splitlines content) as [|line0 rest]; [reflexivity|].
    rewrite Hm. reflexivity. }
  rewrite E. simpl. eexists. split; [reflexivity|]. repeat split.
Qed.

(** C8. Take a service with a bind mount among its mounts, whose file
    has no marker on its first line (or has no line at all).  When the
    volume walk gets through the mounts before it, the round of this
    mount succeeds, leaves the defaults list and the seen keys as they
    were and appends the source path of the mount to the backup paths,
    and the walk goes on with the mounts after it; a walk that raises
    before the mount raises the same for the service; and whenever the
    volume walk of the service succeeds, the source path is among the
    backup paths. *)
Theorem handle_svc_volumes_unmarked cfg name data vols st before vol after
  content :
  volumes data = before ++ vol :: after ->
  m_type vol = Bind ->
  fs cfg (m_source vol) = File content ->
  first_line_is_marked content = false ->
  (forall st1,
      handle_svc_volumes cfg name (with_volumes data before) vols st = Ok st1 ->
      exists st2,
        handle_svc_volumes cfg name (with_volumes data [vol]) vols st1 = Ok st2
        /\ defaults st2 = defaults st1
        /\ services_by_env st2 = services_by_env st1
        /\ backup_paths st2 = backup_paths st1 ++ [m_source vol]
        /\ handle_svc_volumes cfg name data vols st
           = handle_svc_volumes cfg name (with_volumes data after) vols st2)
  /\ (forall e,
        handle_svc_volumes cfg name (with_volumes data before) vols st
        = Raise e ->
        handle_svc_volumes cfg name data vols st = Raise e)
  /\ (forall st',
        handle_svc_volumes cfg name data vols st = Ok st' ->
        In (m_source vol) (backup_paths st')).
Proof.
  intros Hv Hb Hf Hm. unfold handle_svc_volumes. rewrite Hv.
  change (volumes (with_volumes data before)) with before.
  change (volumes (with_volumes data [vol])) with [vol].
  change (volumes (with_volumes data after)) with after.
  split; [|split].
  - intros st1 H1.
    destruct (handle_unmarked_mount cfg name vols st1 vol content Hb Hf Hm)
      as (st2 & E & D & S & B).
    exists st2. cbn [for_each]. rewrite E. cbn [bind].
    split; [reflexivity|]. split; [exact D|]. split; [exact S|].
    split; [exact B|].
    rewrite for_each_app, H1. cbn [bind for_each]. rewrite E. reflexivity.
  - intros e H1. rewrite for_each_app, H1. reflexivity.
  - intros st' H. apply for_each_volume_backup_paths in H. rewrite H.
    apply in_or_app. right. rewrite flat_map_app. apply in_or_app. right.
    cbn [flat_map]. apply in_or_app. left.
    unfold mount_backup_paths. rewrite Hb. now left.
Qed.

(** The service whose one mount is [./data/app.conf], a file without the
    marker. *)
Lemma handle_svc_volumes_unmarked_witness :
  exists st',
    handle_svc_volumes sample_config_with_file (s "web")
      {| environment := None;
         volumes_field :=
           Some [{| m_type := Bind; m_source := s "./data/app.conf" |}];
         ports := []; image := s "nginx" |}
      None init_state = Ok st'
    /\ defaults st' = []
    /\ services_by_env st' = []
    /\ backup_paths st' = [s "./data/app.conf"].
Proof.
  destruct (handle_svc_volumes_unmarked sample_config_with_file (s "web")
              {| environment := None;
                 volumes_field :=
                   Some [{| m_type := Bind; m_source := s "./data/app.conf" |}];
                 ports := []; image := s "nginx" |}
              None init_state []
              {| m_type := Bind; m_source := s "./data/app.conf" |} []
              (s "listen=8080") eq_refl eq_refl eq_refl eq_refl)
    as (H & _ & _).
  destruct (H init_state eq_refl) as (st2 & _ & D & S & B & E).
  exists st2. split; [exact E|]. split; [exact D|]. split; [exact S|].
  exact B.
Defined.

(** ** Steps of the walk *)

Lemma seen_keeps_refl st : seen_keeps st st.
Proof. intros k H. exact H. Qed.

Lemma seen_keeps_trans a b c :
  seen_keeps a b -> seen_keeps b c -> seen_keeps a c.
Proof. intros H1 H2 k H. auto. Qed.




Lemma add_to_defaults_seen cfg key val name sec ef st st' :
  add_to_defaults cfg key val name sec ef st = Ok st' ->
  seen key st' = true /\ seen_keeps st st'
  /\ exposed_ports_by_service st' = exposed_ports_by_service st.
Proof.
  intros H. apply add_to_defaults_cases in H as [[E ->]|[E H]].
  - repeat split; auto. apply seen_keeps_refl.
  - destruct H as (r & st1 & -> & _ & Hs & He & _).
    split; [apply seen_with_service_of_env_same|]. split; [|exact He].
    intros k Hk. destruct (list_eq_dec ascii_dec key k) as [<-|Hne].
    + apply seen_with_service_of_env_same.
    + rewrite seen_with_service_of_env_other by auto.
      unfold seen in *. simpl. now rewrite Hs.
Qed.




(** ** Ports *)

Lemma str_of_Z_inj (p q : Z) : str_of_Z p = str_of_Z q -> p = q.
Proof.
  unfold str_of_Z, s. intros H.
  apply (f_equal string_of_list_ascii) in H.
  rewrite !string_of_list_ascii_of_string in H.
  assert (P : forall z, NilZero.int_of_string
                          (NilZero.string_of_int (Z.to_int z))
                        = Some (Z.to_int z)).
  { intros z. apply NilZero.isi; destruct z; simpl; try discriminate;
      intros E; injection E; apply Unsigned.to_uint_nonnil. }
  apply DecimalZ.to_int_inj.
  pose proof (P p) as Hp. rewrite H, P in Hp. now injection Hp.
Qed.

Lemma variable_from_port_inj cfg name (p q : Z) b :
  variable_from_port cfg name p b = variable_from_port cfg name q b -> p = q.
Proof.
  unfold variable_from_port. intros H.
  repeat apply app_inv_head in H. now apply str_of_Z_inj.
Qed.

Lemma add_to_defaults_plain cfg key val name st :
  add_to_defaults cfg key val name false None st
  = Ok (if seen key st then st
        else with_service_of_env key name
               (with_default
                  {| d_key := variable_from_env cfg key;
                     d_original_key := Some key;
                     d_value := val;
                     d_is_secret := false;
                     d_service := name;
                     d_secret_path := None;
                     d_secret_expr := None;
                     d_env_file := None |} st)).
Proof. unfold add_to_defaults. destruct (seen key st); reflexivity. Qed.

Lemma exposed_ports_same name p st :
  exposed_ports (with_exposed_port name p st) name
  = exposed_ports st name ++ [p].
Proof.
  unfold exposed_ports, with_exposed_port; simpl. rewrite get_set_same.
  destruct (PyDict.get name (exposed_ports_by_service st)); reflexivity.
Qed.

Lemma exposed_ports_other name other p st :
  name <> other ->
  exposed_ports (with_exposed_port name p st) other = exposed_ports st other.
Proof.
  intros H. unfold exposed_ports, with_exposed_port; simpl.
  now rewrite get_set_other.
Qed.

Lemma uint_digits (d : Decimal.uint) :
  forallb is_digit (s (NilEmpty.string_of_uint d)) = true.
Proof. induction d; simpl; auto. Qed.

Lemma str_of_Z_digits (z : Z) :
  (0 <= z)%Z -> str_of_Z z <> [] /\ forallb is_digit (str_of_Z z) = true.
Proof.
  intros Hz. unfold str_of_Z. destruct z as [|p|p]; [| |lia].
  - split; [discriminate | reflexivity].
  - cbn [Z.to_int NilZero.string_of_int].
    pose proof (Unsigned.to_uint_nonnil p) as Hn.
    destruct (Pos.to_uint p); try congruence;
      (split; [discriminate|]);
      match goal with
      | |- forallb is_digit (s (NilZero.string_of_uint ?u)) = true =>
          exact (uint_digits u)
      end.
Qed.

Lemma last_digit (x : str) :
  x <> [] -> forallb is_digit x = true ->
  exists init d, x = init ++ [d] /\ is_digit d = true.
Proof.
  intros Hn Hd. destruct (exists_last Hn) as (init & d & ->).
  exists init, d. split; [reflexivity|].
  rewrite forallb_app in Hd. apply andb_true_iff in Hd as [_ Hd].
  simpl in Hd. now rewrite andb_true_r in Hd.
Qed.

(** The text of a number, negative or not, ends with a digit. *)
Lemma str_of_Z_last (z : Z) :
  exists init d, str_of_Z z = init ++ [d] /\ is_digit d = true.
Proof.
  destruct (Z_le_gt_dec 0 z) as [Hz|Hz].
  - destruct (str_of_Z_digits z Hz) as [Hn Hd]. now apply last_digit.
  - destruct z as [|p|p]; try lia.
    unfold str_of_Z. cbn [Z.to_int NilZero.string_of_int].
    assert (T : s (NilZero.string_of_uint (Pos.to_uint p)) <> []
                /\ forallb is_digit (s (NilZero.string_of_uint (Pos.to_uint p)))
                   = true).
    { pose proof (Unsigned.to_uint_nonnil p) as Hn.
      destruct (Pos.to_uint p); try congruence;
        (split; [discriminate|]);
        match goal with
        | |- forallb is_digit (s (NilZero.string_of_uint ?u)) = true =>
            exact (uint_digits u)
        end. }
    destruct T as [Hn Hd].
    destruct (last_digit _ Hn Hd) as (init & d & E & D).
    exists (ch 45 :: init), d. split; [|exact D].
    transitivity (ch 45 :: s (NilZero.string_of_uint (Pos.to_uint p)));
      [reflexivity|].
    now rewrite E.
Qed.

Lemma last_app_nonempty {A : Type} (l w : list A) (d : A) :
  w <> [] -> last (l ++ w) d = last w d.
Proof.
  intros Hw. induction l as [|a l IH]; [reflexivity|].
  cbn [app]. rewrite <- IH.
  destruct (l ++ w) eqn:E; [|reflexivity].
  apply app_eq_nil in E as [_ E]. congruence.
Qed.

Lemma lower_digit (c : ascii) : is_digit (lower_char c) = is_digit c.
Proof. by_cases_on_char c. Qed.

(** The secret classifier takes no key that ends with a digit: the
    secret words end with a letter. *)
Lemma key_ending_in_digit_not_secret (init : str) (d : ascii) :
  is_digit d = true -> Re.search true patt (init ++ [d]) = false.
Proof.
  intros Hd. destruct (Re.search true patt (init ++ [d])) eqn:E;
    [|reflexivity].
  exfalso. apply search_patt in E as [E | (body & Hb & E)].
  - apply ends_in_secret_word_iff in E as (p & u & w & Hk & Hw & Hu).
    rewrite (secret_words_lower w Hw) in Hu.
    apply (f_equal lower) in Hk. unfold lower at 1 2 in Hk.
    rewrite !map_app in Hk. fold (lower u) in Hk. rewrite Hu in Hk.
    apply (f_equal (fun x => last x (ch 0))) in Hk. cbn [map] in Hk.
    rewrite last_last in Hk.
    assert (L : is_digit (last w (ch 0)) = false).
    { repeat (destruct Hw as [<-|Hw]; [reflexivity|]). destruct Hw. }
    assert (Wn : w <> []).
    { repeat (destruct Hw as [<-|Hw]; [discriminate|]). destruct Hw. }
    rewrite (last_app_nonempty _ w _ Wn) in Hk.
    rewrite <- Hk, lower_digit in L. congruence.
  - apply app_inj_tail in Hb as [_ ->]. discriminate.
Qed.

Lemma port_key_not_secret cfg name (p : Z) :
  Re.search true patt (variable_from_port cfg name p false) = false.
Proof.
  destruct (str_of_Z_last p) as (init & d & E & D).
  unfold variable_from_port. rewrite E.
  cbn [app]. rewrite !app_assoc.
  now apply key_ending_in_digit_not_secret.
Qed.

(** No record of the empty registry is secret. *)
Lemma classified_init : classified init_state.
Proof. intros r k []. Qed.

(** The round of a port entry, by the host port it publishes. *)
Lemma handle_svc_port_host_port cfg name st port :
  handle_svc_port cfg name st port
  = match host_port port with
    | Raise e => Raise e
    | Ok None => Ok st
    | Ok (Some p) =>
        add_to_defaults cfg (variable_from_port cfg name p false) (VInt p)
          name false None (with_exposed_port name p st)
    end.
Proof.
  unfold handle_svc_port, host_port.
  destruct (published port) as [v|]; [|reflexivity].
  destruct (truthy v); [|reflexivity].
  destruct (py_int v); reflexivity.
Qed.

(** One published port: the map gets the port, and the registry its
    variable unless the key was seen. *)
Lemma register_port cfg name p st :
  walk_ok cfg st ->
  exists st' new,
    add_to_defaults cfg (variable_from_port cfg name p false) (VInt p)
      name false None (with_exposed_port name p st) = Ok st'
    /\ walk_ok cfg st' /\ seen_keeps st st'
    /\ exposed_ports st' name = exposed_ports st name ++ [p]
    /\ (forall other, name <> other ->
                      exposed_ports st' other = exposed_ports st other)
    /\ defaults st' = defaults st ++ new
    /\ (new = [] \/ new = [port_record cfg name p])
    /\ seen (variable_from_port cfg name p false) st' = true
    /\ (seen (variable_from_port cfg name p false) st = false ->
        new = [port_record cfg name p])
    /\ (forall k, k <> variable_from_port cfg name p false ->
                  seen k st' = seen k st).
Proof.
  intros [Hr Hpo].
  set (key := variable_from_port cfg name p false) in *.
  set (st0 := with_exposed_port name p st) in *.
  assert (Hseen0 : forall k, seen k st0 = seen k st) by reflexivity.
  assert (Hr0 : registry_ok cfg st0).
  { intros k. specialize (Hr k). now rewrite Hseen0. }
  destruct (add_to_defaults cfg key (VInt p) name false None st0)
    as [st'|] eqn:A; [|rewrite add_to_defaults_plain in A; discriminate].
  destruct (add_to_defaults_seen _ _ _ _ _ _ _ _ A) as (Hk & Hkeep & He).
  assert (Hexp : forall n, exposed_ports st' n = exposed_ports st0 n).
  { intros n. unfold exposed_ports. now rewrite He. }
  assert (Hkeep' : seen_keeps st st').
  { intros k Hs. apply Hkeep. now rewrite Hseen0. }
  exists st', (if seen key st0 then [] else [port_record cfg name p]).
  split; [reflexivity|]. split; [split|].
  - eapply add_to_defaults_ok; eauto.
  - intros n q Hin. rewrite Hexp in Hin.
    destruct (list_eq_dec ascii_dec name n) as [<-|Hne].
    + unfold st0 in Hin. rewrite exposed_ports_same in Hin.
      apply in_app_or in Hin as [Hin|[<-|[]]]; auto.
    + unfold st0 in Hin. rewrite exposed_ports_other in Hin; auto.
  - split; [exact Hkeep'|]. split.
    { rewrite Hexp. apply exposed_ports_same. }
    split.
    { intros other Hne. rewrite Hexp. now apply exposed_ports_other. }
    rewrite add_to_defaults_plain in A. injection A as <-.
    rewrite Hseen0 in *. destruct (seen key st) eqn:S; simpl.
    + rewrite app_nil_r. split; [reflexivity|]. split; [now left|].
      split; [exact S|]. split; [discriminate|]. reflexivity.
    + split; [reflexivity|]. split; [now right|].
      split; [apply seen_with_service_of_env_same|].
      split; [reflexivity|].
      intros k Hne. rewrite seen_with_service_of_env_other by congruence.
      reflexivity.
Qed.

(** The loop over the ports of a service, when every published value
    is a number for [int]. *)
Lemma handle_ports_loop cfg name :
  forall l hps st,
    host_ports l = Ok hps ->
    walk_ok cfg st ->
    exists st' new,
      for_each (handle_svc_port cfg name) l st = Ok st'
      /\ walk_ok cfg st' /\ seen_keeps st st'
      /\ exposed_ports st' name = exposed_ports st name ++ hps
      /\ (forall other, name <> other ->
                        exposed_ports st' other = exposed_ports st other)
      /\ defaults st' = defaults st ++ new
      /\ (forall r, In r new ->
            exists p, In p hps /\ r = port_record cfg name p)
      /\ (forall p, In p hps ->
            seen (variable_from_port cfg name p false) st' = true
            /\ (seen (variable_from_port cfg name p false) st = false ->
                In (port_record cfg name p) new))
      /\ (hps = [] -> st' = st).
Proof.
  induction l as [|port l IH]; intros hps st Hh Hok.
  - injection Hh as <-. exists st, []. simpl. rewrite !app_nil_r.
    split; [reflexivity|]. split; [exact Hok|].
    split; [apply seen_keeps_refl|]. split; [reflexivity|].
    split; [reflexivity|]. split; [reflexivity|].
    split; [intros r []|]. split; [intros p [] | reflexivity].
  - cbn [host_ports] in Hh. cbn [for_each].
    rewrite handle_svc_port_host_port.
    destruct (host_port port) as [[p|]|]; [| |discriminate];
      cbn [bind] in Hh;
      (destruct (host_ports l) as [hs|]; [|discriminate]);
      cbn [bind] in Hh; injection Hh as <-.
    + destruct (register_port cfg name p st Hok)
        as (st1 & new1 & E1 & Hok1 & K1 & X1 & O1 & D1 & N1 & S1 & F1 & T1).
      destruct (IH hs st1 eq_refl Hok1)
        as (st' & new2 & E2 & Hok2 & K2 & X2 & O2 & D2 & N2 & S2 & Z2).
      exists st', (new1 ++ new2). rewrite E1. cbn [bind].
      split; [exact E2|]. split; [exact Hok2|].
      split; [eapply seen_keeps_trans; eauto|].
      split; [rewrite X2, X1, <- app_assoc; reflexivity|].
      split; [intros other Hne; rewrite O2, O1; auto|].
      split; [rewrite D2, D1, <- app_assoc; reflexivity|].
      split; [|split].
      * intros r Hin. apply in_app_or in Hin as [Hin|Hin].
        -- exists p. split; [now left|].
           destruct N1 as [-> | ->]; [destruct Hin|].
           destruct Hin as [<-|[]]. reflexivity.
        -- destruct (N2 r Hin) as (q & Hq & ->). exists q.
           split; [now right | reflexivity].
      * intros q [<-|Hq].
        -- split; [now apply K2|]. intros Hs. apply in_or_app. left.
           rewrite (F1 Hs). now left.
        -- destruct (S2 q Hq) as [Hs2 Hf2]. split; [exact Hs2|].
           intros Hs. apply in_or_app.
           destruct (list_eq_dec ascii_dec
                       (variable_from_port cfg name q false)
                       (variable_from_port cfg name p false)) as [Ek|Nk].
           ++ left. apply variable_from_port_inj in Ek. subst q.
              rewrite (F1 Hs). now left.
           ++ right. apply Hf2. now rewrite (T1 _ Nk).
      * discriminate.
    + destruct (IH hs st eq_refl Hok) as (st' & new & H).
      exists st', new. cbn [bind]. exact H.
Qed.

(** A published value that [int] refuses makes the loop raise. *)
Lemma handle_ports_loop_raises cfg name :
  forall l e st,
    host_ports l = Raise e ->
    for_each (handle_svc_port cfg name) l st = Raise e.
Proof.
  induction l as [|port l IH]; intros e st Hh; [discriminate|].
  cbn [host_ports] in Hh. cbn [for_each].
  rewrite handle_svc_port_host_port.
  destruct (host_port port) as [[p|]|e0]; cbn [bind] in Hh |- *.
  - rewrite add_to_defaults_plain. cbn [bind]. apply IH.
    destruct (host_ports l); [discriminate | exact Hh].
  - apply IH. destruct (host_ports l); [discriminate | exact Hh].
  - now injection Hh as <-.
Qed.

Lemma walk_ok_init cfg : walk_ok cfg init_state.
Proof.
  split; [apply registry_ok_init | intros name p []].
Qed.

Lemma records_of_in key r l :
  In r l -> d_original_key r = Some key -> In r (records_of key l).
Proof.
  intros Hin Ho. apply filter_In. split; auto. now apply registered_for_eq.
Qed.

(** C7.  Take a state that satisfies the invariant of the walk and
    whose secret records are for keys that the classifier accepts, as
    the states of the walk are.  The walker skips a port whose published
    value Python takes as false (none, the number 0, the empty string)
    and reads any other value with [int].  When [int] refuses one of the
    values the port walk raises.  Otherwise it succeeds; the exposed-ports
    entry of the service gains the host ports, in order, and the entries
    of the other services stay; every host port [p] has exactly one
    record registered under the name [host_port_<service>_<p>], a name
    without the prefix; that record is not secret and has, as every
    record has, the prefix followed by the normalized name as its key;
    the records appended are port records (not secret, the port as
    value, the service as owner), the record of a name that was not seen
    before being one of them; and a service with no host port leaves
    the state as it was: no map entry and no record. *)
Theorem handle_svc_ports_spec cfg name data st :
  walk_ok cfg st -> classified st ->
  match host_ports (ports data) with
  | Raise e => handle_svc_ports cfg name data st = Raise e
  | Ok hps =>
      exists st',
        handle_svc_ports cfg name data st = Ok st'
        /\ exposed_ports st' name = exposed_ports st name ++ hps
        /\ (forall other, name <> other ->
              exposed_ports st' other = exposed_ports st other)
        /\ (forall p,
              In p hps ->
              let key := s "host_port_" ++ name ++ s "_" ++ str_of_Z p in
              exists r,
                records_of key (defaults st') = [r]
                /\ d_original_key r = Some key
                /\ d_key r = defaults_prefix cfg ++ normalize_key_and_name key
                /\ d_is_secret r = false
                /\ (seen key st = false -> r = port_record cfg name p))
        /\ (exists new,
              defaults st' = defaults st ++ new
              /\ forall r, In r new ->
                   exists p, In p hps /\ r = port_record cfg name p)
        /\ (hps = [] -> st' = st)
  end.
Proof.
  intros Hok Hcl. unfold handle_svc_ports.
  destruct (host_ports (ports data)) as [hps|e] eqn:Hh;
    [|now apply handle_ports_loop_raises].
  destruct (handle_ports_loop cfg name (ports data) hps st Hh Hok)
    as (st' & new & E & [Hr Hp] & K & X & O & D & N & S & Z).
  exists st'. split; [exact E|]. split; [exact X|]. split; [exact O|].
  split; [|split; [exists new; split; assumption | exact Z]].
  intros p Hin.
  change (s "host_port_" ++ name ++ s "_" ++ str_of_Z p)
    with (variable_from_port cfg name p false).
  set (key := variable_from_port cfg name p false).
  destruct (S p Hin) as [Hs Hf]. fold key in Hs, Hf.
  specialize (Hr key). rewrite Hs in Hr. destruct Hr as (r & Hrec & Hk).
  exists r. split; [exact Hrec|].
  assert (Hin' : In r (records_of key (defaults st')))
    by (rewrite Hrec; now left).
  apply filter_In in Hin' as [Hin' Ho]. apply registered_for_eq in Ho.
  split; [exact Ho|]. split; [exact Hk|]. split.
  - rewrite D in Hin'. apply in_app_or in Hin' as [Hin'|Hin'].
    + destruct (d_is_secret r) eqn:F; [|reflexivity].
      pose proof (Hcl r key Hin' Ho F) as C.
      unfold key in C. rewrite port_key_not_secret in C. discriminate.
    + destruct (N r Hin') as (q & _ & ->). reflexivity.
  - intros Hfresh. specialize (Hf Hfresh).
    assert (Hin2 : In (port_record cfg name p)
                     (records_of key (defaults st'))).
    { apply records_of_in; [|reflexivity].
      rewrite D. apply in_or_app. now right. }
    rewrite Hrec in Hin2. destruct Hin2 as [->|[]]. reflexivity.
Qed.

(** The service [web] with four port entries: the text [8080], no
    published value, the number 0, and the text [0], which is a true
    value and the host port 0. *)
Lemma handle_svc_ports_spec_witness :
  exists st',
    handle_svc_ports sample_config (s "web")
      {| environment := None; volumes_field := None;
         ports := [{| published := Some (PStr (s "8080")) |};
                   {| published := None |};
                   {| published := Some (PInt 0) |};
                   {| published := Some (PStr (s "0")) |}];
         image := s "nginx:1.25" |}
      init_state = Ok st'
    /\ exposed_ports st' (s "web") = [8080%Z; 0%Z]
    /\ exists r,
        records_of (s "host_port_web_8080") (defaults st') = [r]
        /\ d_original_key r = Some (s "host_port_web_8080")
        /\ d_key r = s "app_host_port_web_8080"
        /\ d_is_secret r = false.
Proof.
  pose proof (handle_svc_ports_spec sample_config (s "web")
                {| environment := None; volumes_field := None;
                   ports := [{| published := Some (PStr (s "8080")) |};
                             {| published := None |};
                             {| published := Some (PInt 0) |};
                             {| published := Some (PStr (s "0")) |}];
                   image := s "nginx:1.25" |}
                init_state (walk_ok_init sample_config) classified_init)
    as H.
  change (host_ports _) with (Ok [8080%Z; 0%Z]) in H.
  destruct H as (st' & E & X & _ & R & _).
  exists st'. split; [exact E|]. split; [exact X|].
  destruct (R 8080%Z (or_introl eq_refl)) as (r & R1 & R2 & R3 & R4 & _).
  exists r. split; [exact R1|]. split; [exact R2|]. split; [exact R3|].
  exact R4.
Defined.

(** ** The walk keeps its invariant *)










(** ** Names that the normalizer leaves unchanged *)










(** ** Descriptor rewriter *)


Lemma In_set {V} (k : str) (v : V) (d : PyDict.t V) n v' :
  In (n, v') (PyDict.set k v d) -> In (n, v') d \/ (n = k /\ v' = v).
Proof.
  induction d as [|[k0 v0] d IH]; simpl.
  - intros [H|[]]. injection H as <- <-. now right.
  - destruct (str_eqb k0 k) eqn:E; simpl.
    + apply str_eqb_eq in E. subst k0. intros [H|H].
      * injection H as <- <-. now right.
      * left. now right.
    + intros [H|H]; [left; now left|].
      destruct (IH H) as [H'|H']; [left; now right | now right].
Qed.





Lemma map_result_total {A B : Type} (f : A -> result B) (g : A -> B) :
  forall l,
    (forall a, In a l -> f a = Ok (g a)) -> map_result f l = Ok (map g l).
Proof.
  induction l as [|a l IH]; intros H; simpl; [reflexivity|].
  rewrite (H a (or_introl eq_refl)). simpl.
  rewrite IH by (intros b Hb; apply H; now right). reflexivity.
Qed.




(** ** Replacement templates *)

Lemma is_backslash_eq (c : ascii) : is_backslash c = true -> c = ch 92.
Proof.
  unfold is_backslash, code. rewrite N.eqb_eq. intros H.
  rewrite <- (ascii_N_embedding c), H. reflexivity.
Qed.

(** A template without a backslash stands for itself. *)
Lemma parse_template_literal (x : str) :
  ~ In (ch 92) x -> parse_template x = Ok (map RLit x).
Proof.
  unfold parse_template. induction x as [|c x IH]; intros H; [reflexivity|].
  cbn [parse_template_from template_step]. unfold template_normal.
  destruct (is_backslash c) eqn:B.
  - apply is_backslash_eq in B. subst c. elim H. now left.
  - cbn [bind fst snd]. rewrite IH by (intros Hin; apply H; now right).
    reflexivity.
Qed.

Lemma expand_template_literal (x matched : str) :
  expand_template (map RLit x) matched = x.
Proof.
  unfold expand_template. induction x as [|c x IH]; simpl; congruence.
Qed.

Lemma patch_port_literal (port_line new_key : str) :
  ~ In (ch 92) new_key ->
  patch_port port_line new_key = Ok (sub_leading_digits port_line new_key).
Proof.
  intros H. unfold patch_port. rewrite (parse_template_literal _ H).
  cbn [bind]. now rewrite expand_template_literal.
Qed.

Lemma uint_no_backslash (d : Decimal.uint) :
  ~ In (ch 92) (s (NilEmpty.string_of_uint d)).
Proof.
  induction d; simpl; [tauto|..]; intros [H|H]; try discriminate; auto.
Qed.

Lemma str_of_Z_no_backslash (z : Z) : ~ In (ch 92) (str_of_Z z).
Proof.
  unfold str_of_Z.
  assert (U : forall d, ~ In (ch 92) (s (NilZero.string_of_uint d))).
  { intros d. destruct d; try apply uint_no_backslash.
    simpl. intros [H|[]]. discriminate. }
  destruct (Z.to_int z) as [d|d]; simpl.
  - apply U.
  - intros [H|H]; [discriminate | now apply (U d)].
Qed.

(** The placeholder of a port variable holds no backslash when the
    prefix and the service name hold none. *)
Lemma port_placeholder_literal cfg name (p : Z) :
  ~ In (ch 92) (defaults_prefix cfg) -> ~ In (ch 92) name ->
  ~ In (ch 92) (port_placeholder cfg name p).
Proof.
  intros Hp Hn. unfold port_placeholder, placeholder, variable_from_port.
  rewrite !in_app_iff. intros H.
  repeat (destruct H as [H|H]); try tauto;
    try (now apply (str_of_Z_no_backslash p));
    vm_compute in H; discriminate.
Qed.

(** The port lines, when the prefix and the service name hold no
    backslash: the lines paired with the exposed ports of the service
    get the placeholder of the port in place of their leading digits;
    with no pair the port list stays. *)
Lemma rewrite_ports_literal cfg st name ps :
  ~ In (ch 92) (defaults_prefix cfg) -> ~ In (ch 92) name ->
  rewrite_ports cfg st name ps
  = Ok (match combine (match ps with Some l => l | None => [] end)
                (exposed_ports st name) with
        | [] => ps
        | pairs =>
            Some (map (fun pe =>
                         sub_leading_digits (fst pe)
                           (port_placeholder cfg name (snd pe)))
                    pairs)
        end).
Proof.
  intros Hp Hn. unfold rewrite_ports.
  rewrite (map_result_total _
             (fun pe => sub_leading_digits (fst pe)
                          (port_placeholder cfg name (snd pe)))).
  - cbn [bind]. destruct (combine _ (exposed_ports st name)); reflexivity.
  - intros pe _. apply patch_port_literal.
    now apply port_placeholder_literal.
Qed.



(** ** Image tag of a service *)





(** ** Placeholders and records *)




(** The port variable of a service whose name has a capital letter: the
    registry lowers the name in the key of the record, the rewriter does
    not, and the placeholder of the port names no record. *)
Lemma port_variable_case_mismatch :
  exists st',
    handle_svc_ports sample_config (s "Web") sample_web init_state = Ok st'
    /\ In 8080%Z (exposed_ports st' (s "Web"))
    /\ resolves st' (s "app_host_port_web_8080")
    /\ variable_from_port sample_config (s "Web") 8080 true
       = s "app_host_port_Web_8080"
    /\ ~ resolves st' (s "app_host_port_Web_8080").
Proof.
  eexists. split; [vm_compute; reflexivity|].
  split; [now left|]. split; [|split; [reflexivity|]].
  - eexists. split; [now left | reflexivity].
  - intros (r & Hin & Hk). simpl in Hin.
    destruct Hin as [<-|[]]. vm_compute in Hk. discriminate.
Qed.

(* ================================================================== *)
(** * Further properties of the program *)

(** ** Key normalizer and prefix *)

Lemma is_rbracket_eq (c : ascii) : is_rbracket c = true -> c = ch 93.
Proof.
  unfold is_rbracket, code. rewrite N.eqb_eq. intros H.
  rewrite <- (ascii_N_embedding c), H. reflexivity.
Qed.

Lemma no_match_without_bracket (name : str) :
  ~ In (ch 93) name -> no_match name = true.
Proof.
  induction name as [|c rest IH]; intros H; [reflexivity|].
  cbn [no_match]. rewrite IH by (intros Hin; apply H; now right).
  rewrite andb_true_r. destruct rest as [|d rest]; simpl.
  - now rewrite andb_false_r.
  - destruct (is_rbracket d) eqn:E.
    + apply is_rbracket_eq in E. subst d. elim H. right. now left.
    + now rewrite andb_false_r.
Qed.

(** X1. On a name without a closing bracket the normalizer is [lower]
    and nothing else: whitespace and hyphens stay where they are. *)
Theorem normalize_without_bracket (name : str) :
  ~ In (ch 93) name -> normalize_key_and_name name = lower name.
Proof.
  intros H. unfold normalize_key_and_name.
  now rewrite sub_without_match by now apply no_match_without_bracket.
Qed.

Lemma normalize_without_bracket_witness :
  normalize_key_and_name (s "My Role-2") = s "my role-2".
Proof.
  rewrite (normalize_without_bracket (s "My Role-2")).
  - reflexivity.
  - vm_compute. intuition discriminate.
Defined.

Lemma sub_lower_bounded (n : nat) :
  forall x, List.length x <= n ->
            sub_space_hyphen_bracket (lower x)
            = lower (sub_space_hyphen_bracket x).
Proof.
  induction n as [|n IH]; intros x Hx.
  - destruct x; [reflexivity | simpl in Hx; lia].
  - destruct x as [|c [|d t]]; [reflexivity | reflexivity |].
    change (lower (c :: d :: t))
      with (lower_char c :: lower_char d :: lower t).
    rewrite !sub_cons2, lower_char_sep, lower_char_rbracket.
    destruct (is_space_or_hyphen c && is_rbracket d)%bool.
    + rewrite IH by (simpl in Hx; lia). reflexivity.
    + change (lower_char d :: lower t) with (lower (d :: t)).
      rewrite IH by (simpl in *; lia). reflexivity.
Qed.

(** X2. The normalizer does not see the case of its input: a key and
    its lowercase form get the same normalized name, hence the same
    variable name. *)
Theorem normalize_ignores_case cfg (key : str) :
  normalize_key_and_name (lower key) = normalize_key_and_name key
  /\ variable_from_env cfg (lower key) = variable_from_env cfg key.
Proof.
  assert (E : normalize_key_and_name (lower key)
              = normalize_key_and_name key).
  { unfold normalize_key_and_name.
    rewrite (sub_lower_bounded (List.length key)) by lia.
    apply lower_idem. }
  split; [exact E|]. unfold variable_from_env. now rewrite E.
Qed.

Lemma endswith_app (x p : str) : endswith (x ++ p) p = true.
Proof. apply endswith_spec. now exists x. Qed.

(** X3. The prefix that the program uses always ends with an
    underscore: it is the option itself when that already ends with one,
    and the option followed by one underscore otherwise. *)
Theorem defaults_prefix_closed cfg :
  endswith (defaults_prefix cfg) (s "_") = true
  /\ (defaults_prefix cfg = opt_defaults_prefix cfg
      \/ (endswith (opt_defaults_prefix cfg) (s "_") = false
          /\ defaults_prefix cfg = opt_defaults_prefix cfg ++ s "_")).
Proof.
  unfold defaults_prefix.
  destruct (endswith (opt_defaults_prefix cfg) (s "_")) eqn:E.
  - split; [exact E | now left].
  - split; [apply endswith_app | right; now split].
Qed.

(** X4. The prefix callback accepts exactly the values that hold no
    whitespace and no hyphen, and returns them unchanged; the prefix that
    the program derives from an accepted value holds none either. *)
Theorem validate_defaults_prefix_spec cfg (value : str) :
  (validate_defaults_prefix value = Some value <-> no_space_or_hyphen value)
  /\ (validate_defaults_prefix value = None <-> ~ no_space_or_hyphen value)
  /\ (validate_defaults_prefix (opt_defaults_prefix cfg) <> None ->
      no_space_or_hyphen (defaults_prefix cfg)).
Proof.
  assert (A : existsb is_space_or_hyphen value = false
              <-> no_space_or_hyphen value).
  { unfold no_space_or_hyphen. rewrite Forall_forall. split.
    - intros H c Hc. destruct (is_space_or_hyphen c) eqn:E; auto.
      assert (existsb is_space_or_hyphen value = true)
        by (apply existsb_exists; eauto). congruence.
    - intros H. destruct (existsb is_space_or_hyphen value) eqn:E; auto.
      apply existsb_exists in E as (c & Hc & E). rewrite (H c Hc) in E.
      discriminate. }
  assert (C : validate_defaults_prefix (opt_defaults_prefix cfg) <> None ->
              no_space_or_hyphen (defaults_prefix cfg)).
  { intros H.
    assert (B : no_space_or_hyphen (opt_defaults_prefix cfg)).
    { unfold no_space_or_hyphen. rewrite Forall_forall. intros c Hc.
      destruct (is_space_or_hyphen c) eqn:E; auto. elim H.
      assert (X : existsb is_space_or_hyphen (opt_defaults_prefix cfg) = true)
        by (apply existsb_exists; eauto).
      unfold validate_defaults_prefix. now rewrite X. }
    unfold defaults_prefix.
    destruct (endswith (opt_defaults_prefix cfg) (s "_")); auto.
    apply Forall_app. split; [exact B|]. repeat constructor. }
  unfold validate_defaults_prefix at 1 2.
  destruct (existsb is_space_or_hyphen value) eqn:E.
  - assert (N : ~ no_space_or_hyphen value)
      by (intros H; apply A in H; discriminate).
    split; [split; [discriminate | intros H; contradiction]|].
    split; [split; [auto | reflexivity] | exact C].
  - assert (P : no_space_or_hyphen value) by (apply A; reflexivity).
    split; [split; auto|].
    split; [split; [discriminate | intros H; contradiction] | exact C].
Qed.

Lemma validate_defaults_prefix_spec_witness :
  no_space_or_hyphen (defaults_prefix sample_config).
Proof.
  apply (validate_defaults_prefix_spec sample_config []).
  vm_compute. discriminate.
Defined.

(** ** Port lines *)

Lemma drop_digits_app (ds rest : str) :
  forallb is_digit ds = true -> starts_with_digit rest = false ->
  drop_digits (ds ++ rest) = rest.
Proof.
  intros Hd Hr.
  induction ds as [|c ds IH]; cbn [drop_digits app forallb] in *.
  - destruct rest as [|c rest]; [reflexivity|].
    cbn [drop_digits starts_with_digit] in *. now rewrite Hr.
  - apply andb_true_iff in Hd as [Hc Hd]. rewrite Hc. auto.
Qed.


Lemma sub_leading_digits_plain (port_line repl : str) :
  starts_with_digit port_line = false ->
  sub_leading_digits port_line repl = port_line.
Proof.
  destruct port_line as [|c l]; intros H; [reflexivity|].
  cbn [sub_leading_digits starts_with_digit] in *. now rewrite H.
Qed.

Lemma sub_leading_digits_app (repl ds rest : str) :
  ds <> [] -> forallb is_digit ds = true ->
  starts_with_digit rest = false ->
  sub_leading_digits (ds ++ rest) repl = repl ++ rest.
Proof.
  destruct ds as [|c ds]; intros Hne Hd Hr; [congruence|].
  pose proof (drop_digits_app (c :: ds) rest Hd Hr) as E.
  cbn [forallb] in Hd. apply andb_true_iff in Hd as [Hc _].
  cbn [sub_leading_digits app]. rewrite Hc.
  change (c :: ds ++ rest) with ((c :: ds) ++ rest). now rewrite E.
Qed.

Lemma patch_port_digits (new_key ds rest : str) :
  ~ In (ch 92) new_key ->
  ds <> [] -> forallb is_digit ds = true ->
  starts_with_digit rest = false ->
  patch_port (ds ++ rest) new_key = Ok (new_key ++ rest).
Proof.
  intros Hb Hne Hd Hr. rewrite (patch_port_literal _ _ Hb).
  now rewrite sub_leading_digits_app.
Qed.

(** X5. With a replacement that holds no backslash, [patch_port]
    replaces the run of digits that opens the port line by the
    replacement and nothing else; a line that does not open with a digit
    comes back unchanged. *)
Theorem patch_port_spec (new_key : str) :
  ~ In (ch 92) new_key ->
  (forall port_line,
      starts_with_digit port_line = false ->
      patch_port port_line new_key = Ok port_line)
  /\ (forall ds rest,
        ds <> [] -> forallb is_digit ds = true ->
        starts_with_digit rest = false ->
        patch_port (ds ++ rest) new_key = Ok (new_key ++ rest)).
Proof.
  intros Hb. split.
  - intros port_line H. rewrite (patch_port_literal _ _ Hb).
    now rewrite sub_leading_digits_plain.
  - intros ds rest. now apply patch_port_digits.
Qed.

Lemma patch_port_spec_witness :
  patch_port (s "8080:80") (s "{{ p }}") = Ok (s "{{ p }}:80")
  /\ patch_port (s "${PORT}:80") (s "{{ p }}") = Ok (s "${PORT}:80").
Proof.
  assert (Hb : ~ In (ch 92) (s "{{ p }}"))
    by (vm_compute; intuition discriminate).
  split.
  - apply (proj2 (patch_port_spec (s "{{ p }}") Hb) (s "8080") (s ":80"));
      [discriminate | reflexivity | reflexivity].
  - apply (proj1 (patch_port_spec (s "{{ p }}") Hb)). reflexivity.
Defined.

(** X6. When neither the prefix nor the service name holds a
    backslash, a port line that opens with a published host port, as
    decimal text, gets the placeholder of that port's variable in place
    of the number; what follows the number is kept. *)
Theorem patch_port_published cfg name (p : Z) (rest : str) :
  ~ In (ch 92) (defaults_prefix cfg) -> ~ In (ch 92) name ->
  (0 <= p)%Z -> starts_with_digit rest = false ->
  patch_port (str_of_Z p ++ rest) (port_placeholder cfg name p)
  = Ok (s "{{ " ++ variable_from_port cfg name p true ++ s " }}" ++ rest).
Proof.
  intros Hb Hn Hp Hr. destruct (str_of_Z_digits p Hp) as [Hne Hd].
  rewrite (patch_port_digits _ _ _
             (port_placeholder_literal cfg name p Hb Hn) Hne Hd Hr).
  unfold port_placeholder, placeholder. now rewrite <- !app_assoc.
Qed.

Lemma patch_port_published_witness :
  patch_port (s "8080:80") (port_placeholder sample_config (s "web") 8080)
  = Ok (s "{{ app_host_port_web_8080 }}:80").
Proof.
  apply (patch_port_published sample_config (s "web") 8080 (s ":80"));
    [ vm_compute; intuition discriminate
    | vm_compute; intuition discriminate
    | lia | reflexivity ].
Defined.



(** ** Environment items and env files *)

Lemma split_once_none (sep : ascii) (x : str) :
  split_once sep x = None <-> ~ In sep x.
Proof.
  induction x as [|c x IH]; simpl.
  - tauto.
  - destruct (Ascii.eqb c sep) eqn:E.
    + apply Ascii.eqb_eq in E. subst. split; [discriminate|].
      intros H. elim H. now left.
    + apply Ascii.eqb_neq in E.
      destruct (split_once sep x) as [[k v]|].
      * split; [discriminate|]. intros H. exfalso.
        assert (N : ~ In sep x) by tauto. apply IH in N. discriminate.
      * split; [|reflexivity]. intros _ [H|H]; [congruence|].
        now apply (proj1 IH).
Qed.

Lemma split_once_some (sep : ascii) (x k v : str) :
  split_once sep x = Some (k, v) <-> x = k ++ sep :: v /\ ~ In sep k.
Proof.
  revert k v. induction x as [|c x IH]; intros k v; simpl.
  - split; [discriminate|]. intros [H _]. destruct k; discriminate.
  - destruct (Ascii.eqb c sep) eqn:E.
    + apply Ascii.eqb_eq in E. subst c. split.
      * intros H. injection H as <- <-. split; [reflexivity | tauto].
      * intros [H N]. destruct k as [|c k].
        -- simpl in H. now injection H as ->.
        -- simpl in H. injection H as <- _. elim N. now left.
    + apply Ascii.eqb_neq in E.
      destruct (split_once sep x) as [[k0 v0]|].
      * destruct (proj1 (IH k0 v0) eq_refl) as [Hx N0]. split.
        -- intros H. injection H as <- <-. subst x.
           split; [reflexivity|]. intros [H|H]; [congruence | tauto].
        -- intros [H N]. destruct k as [|c' k].
           ++ simpl in H. injection H as -> _. congruence.
           ++ simpl in H. injection H as <- H.
              assert (S : Some (k0, v0) = Some (k, v)).
              { apply IH. split; [exact H|]. intros Hin. apply N.
                now right. }
              now injection S as -> ->.
      * split; [discriminate|]. intros [H N]. destruct k as [|c' k].
        -- simpl in H. injection H as -> _. congruence.
        -- simpl in H. injection H as <- H.
           assert (S : None = Some (k, v)).
           { apply IH. split; [exact H|]. intros Hin. apply N.
             now right. }
           discriminate.
Qed.

Lemma env_to_dict_from_app e l1 l2 :
  env_to_dict_from e (l1 ++ l2)
  = (e' <- env_to_dict_from e l1 ;; env_to_dict_from e' l2).
Proof.
  revert e. induction l1 as [|item l1 IH]; intros e;
    cbn [env_to_dict_from app]; [reflexivity|].
  destruct (split_once (ch 61) item) as [[k v]|]; [apply IH | reflexivity].
Qed.

Lemma env_to_dict_from_ok_iff (env_ : list str) :
  forall e,
    ((exists e', env_to_dict_from e env_ = Ok e')
     <-> Forall (fun item => In (ch 61) item) env_)
    /\ ((exists item, In item env_ /\ ~ In (ch 61) item)
        <-> env_to_dict_from e env_ = Raise ValueError).
Proof.
  induction env_ as [|item rest IH]; intros e.
  - split; split; simpl.
    + constructor.
    + eauto.
    + intros (item & [] & _).
    + discriminate.
  - cbn [env_to_dict_from].
    destruct (split_once (ch 61) item) as [[k v]|] eqn:S.
    + assert (Hin : In (ch 61) item).
      { apply split_once_some in S as [-> _].
        apply in_or_app. right. now left. }
      destruct (IH (PyDict.set k v e)) as [I1 I2]. split; split.
      * intros H. constructor; [exact Hin | now apply I1].
      * intros H. apply I1. now inversion H.
      * intros (it & [<-|Hit] & N); [contradiction|]. apply I2. eauto.
      * intros H. apply I2 in H as (it & Hit & N). exists it.
        split; [now right | exact N].
    + apply split_once_none in S. split; split.
      * intros (e' & H). discriminate.
      * intros H. inversion H. contradiction.
      * reflexivity.
      * intros _. exists item. split; [now left | exact S].
Qed.

(** X7. [env_to_dict] succeeds exactly when every item holds an ["="];
    otherwise the unpacking fails and it raises [ValueError]. *)
Theorem env_to_dict_ok_iff (env_ : list str) :
  ((exists e, env_to_dict env_ = Ok e)
   <-> Forall (fun item => In (ch 61) item) env_)
  /\ ((exists item, In item env_ /\ ~ In (ch 61) item)
      <-> env_to_dict env_ = Raise ValueError).
Proof. apply env_to_dict_from_ok_iff. Qed.

Lemma set_fresh {V} (k : str) (v : V) (d : PyDict.t V) :
  ~ In k (PyDict.keys d) -> PyDict.set k v d = d ++ [(k, v)].
Proof.
  induction d as [|[k0 v0] d IH]; intros H; simpl; [reflexivity|].
  destruct (str_eqb k0 k) eqn:E.
  - apply str_eqb_eq in E. subst. elim H. now left.
  - rewrite IH; [reflexivity|]. intros Hin. apply H. now right.
Qed.

(** X8. Items built from the pairs of a dictionary whose keys are
    distinct and hold no ["="] parse back to that dictionary, in the
    same order. *)
Theorem env_to_dict_round_trip (d : PyDict.t str) :
  NoDup (PyDict.keys d) ->
  (forall k, In k (PyDict.keys d) -> ~ In (ch 61) k) ->
  env_to_dict (map env_item d) = Ok d.
Proof.
  unfold env_to_dict. change d with ([] ++ d) at 1 2 4.
  generalize (@nil (str * str)) as e.
  induction d as [|[k v] d IH]; intros e Hnd Hk.
  - simpl. now rewrite app_nil_r.
  - cbn [map env_to_dict_from]. unfold env_item at 1. cbn [fst snd].
    assert (S : split_once (ch 61) (k ++ ch 61 :: v) = Some (k, v)).
    { apply split_once_some. split; [reflexivity|]. apply Hk.
      unfold PyDict.keys. rewrite map_app. apply in_or_app. right.
      now left. }
    rewrite S. unfold PyDict.keys in *.
    rewrite map_app in Hnd. simpl in Hnd.
    rewrite set_fresh.
    + replace (e ++ (k, v) :: d) with ((e ++ [(k, v)]) ++ d)
        by (rewrite <- app_assoc; reflexivity).
      apply IH.
      * rewrite !map_app, <- app_assoc. exact Hnd.
      * intros k0 Hin. apply Hk. rewrite !map_app in *.
        rewrite <- app_assoc in Hin. exact Hin.
    + apply NoDup_remove_2 in Hnd. intros Hin. apply Hnd.
      apply in_or_app. now left.
Qed.

Lemma env_to_dict_round_trip_witness :
  env_to_dict [s "A=1"; s "B=x=y"] = Ok [(s "A", s "1"); (s "B", s "x=y")].
Proof.
  apply (env_to_dict_round_trip [(s "A", s "1"); (s "B", s "x=y")]).
  - repeat constructor; simpl; intuition discriminate.
  - intros k [<-|[<-|[]]]; vm_compute; intuition discriminate.
Defined.

(** X9. When the same key comes twice in the items, the last item gives
    its value. *)
Theorem env_to_dict_last_wins (env_ : list str) (k v : str) e :
  ~ In (ch 61) k ->
  env_to_dict (env_ ++ [env_item (k, v)]) = Ok e ->
  PyDict.get k e = Some v.
Proof.
  intros Hk. unfold env_to_dict. rewrite env_to_dict_from_app.
  destruct (env_to_dict_from [] env_) as [e0|]; [|discriminate].
  cbn [bind env_to_dict_from]. unfold env_item. cbn [fst snd].
  rewrite (proj2 (split_once_some (ch 61) (k ++ ch 61 :: v) k v))
    by (split; [reflexivity | exact Hk]).
  intros H. injection H as <-. apply get_set_same.
Qed.

Lemma env_to_dict_last_wins_witness :
  PyDict.get (s "A") [(s "A", s "2"); (s "B", s "x")] = Some (s "2").
Proof.
  apply (env_to_dict_last_wins [s "A=1"; s "B=x"] (s "A") (s "2")).
  - vm_compute. intuition discriminate.
  - reflexivity.
Defined.

(** X10. The marker only opens the door: a file whose first line starts
    with the marker is parsed in the strict mode exactly as in the mode
    of the env files of a service, the marker line being a comment. *)
Theorem env_from_text_marked (text : str) :
  first_line_is_marked text = true ->
  env_from_text text false = env_from_text text true.
Proof.
  unfold first_line_is_marked, env_from_text, iterate.
  destruct (splitlines text) as [|line0 rest]; [reflexivity|].
  intros H. now rewrite H.
Qed.

Lemma env_from_text_marked_witness :
  env_from_text sample_marked_text false = Ok [(s "USER", s "admin")].
Proof.
  rewrite (env_from_text_marked sample_marked_text eq_refl). reflexivity.
Defined.

Lemma env_to_dict_from_origin items :
  forall e d,
    env_to_dict_from e items = Ok d ->
    forall k v, In (k, v) d ->
      In (k, v) e
      \/ exists item,
          In item items /\ item = k ++ ch 61 :: v /\ ~ In (ch 61) k.
Proof.
  induction items as [|item items IH]; intros e d H k v Hin;
    cbn [env_to_dict_from] in H.
  - injection H as <-. now left.
  - destruct (split_once (ch 61) item) as [[k0 v0]|] eqn:S; [|discriminate].
    destruct (IH _ _ H k v Hin) as [Hs | (it & Hit & E)].
    + apply In_set in Hs as [Hs | [-> ->]]; [now left|].
      right. exists item. split; [now left|].
      now apply split_once_some in S.
    + right. exists it. split; [now right | exact E].
Qed.

(** X11. Every pair read from an env file comes from a line of the file
    split at its first ["="]: the line is the key, an ["="] and the
    value, and the key holds no ["="]; comment lines give no pair: no
    key starts with ["#"]. *)
Theorem env_from_text_pairs (text : str) (compose_env_file : bool) d :
  env_from_text text compose_env_file = Ok d ->
  forall k v,
    In (k, v) d ->
    In (k ++ ch 61 :: v) (splitlines text)
    /\ ~ In (ch 61) k
    /\ startswith k (s "#") = false.
Proof.
  unfold env_from_text, env_to_dict. intros H k v Hin.
  destruct (env_to_dict_from_origin _ _ _ H k v Hin)
    as [[] | (item & Hit & -> & Hk)].
  unfold iterate in Hit.
  destruct (splitlines text) as [|line0 rest] eqn:L; [destruct Hit|].
  destruct (negb compose_env_file && negb (startswith line0 file_type_env))%bool;
    [destruct Hit|].
  apply filter_In in Hit as [Hl Hf]. split; [exact Hl|].
  split; [exact Hk|].
  destruct k as [|c k]; [reflexivity|].
  cbn [app] in Hf. apply negb_true_iff in Hf. exact Hf.
Qed.

Lemma env_from_text_pairs_witness :
  In (s "URL=http://h/?a=b") (splitlines sample_url_text)
  /\ ~ In (ch 61) (s "URL")
  /\ startswith (s "URL") (s "#") = false.
Proof.
  apply (env_from_text_pairs sample_url_text false
           [(s "URL", s "http://h/?a=b")] eq_refl
           (s "URL") (s "http://h/?a=b")).
  now left.
Defined.

(** ** Images *)

Lemma split_on_nonempty (sep : ascii) (x : str) : split_on sep x <> [].
Proof.
  destruct x as [|c x]; simpl; [discriminate|].
  destruct (Ascii.eqb c sep); [discriminate|].
  destruct (split_on sep x); discriminate.
Qed.

(** Joining the pieces of a split with the separator gives the text
    back. *)
Lemma join_split_on (sep : ascii) (x : str) :
  join [sep] (split_on sep x) = x.
Proof.
  induction x as [|c x IH]; [reflexivity|].
  cbn [split_on]. destruct (Ascii.eqb c sep) eqn:E.
  - apply Ascii.eqb_eq in E. subst c.
    pose proof (split_on_nonempty sep x) as N.
    destruct (split_on sep x) as [|p ps]; [congruence|].
    cbn [join app] in *. now rewrite IH.
  - pose proof (split_on_nonempty sep x) as N.
    destruct (split_on sep x) as [|p ps]; [congruence|].
    destruct ps as [|q ps]; cbn [join app] in *; now rewrite <- IH.
Qed.

Lemma split_on_app (sep : ascii) (a b : str) :
  split_on sep (a ++ sep :: b) = split_on sep a ++ split_on sep b.
Proof.
  induction a as [|c a IH]; cbn [app split_on].
  - now rewrite Ascii.eqb_refl.
  - rewrite IH. destruct (Ascii.eqb c sep); [reflexivity|].
    pose proof (split_on_nonempty sep a) as N.
    destruct (split_on sep a) as [|p ps]; [congruence | reflexivity].
Qed.

Lemma join_snoc (sep : str) (l : list str) (x : str) :
  l <> [] -> join sep (l ++ [x]) = join sep l ++ sep ++ x.
Proof.
  induction l as [|p l IH]; intros N; [congruence|].
  destruct l as [|q l]; [reflexivity|].
  change (join sep ((p :: q :: l) ++ [x]))
    with (p ++ sep ++ join sep ((q :: l) ++ [x])).
  rewrite IH by discriminate.
  change (join sep (p :: q :: l)) with (p ++ sep ++ join sep (q :: l)).
  now rewrite <- !app_assoc.
Qed.

(** X12. For an image made of a repository, a colon and a tag without
    colon, [patch_image_tag] keeps the repository (colons of a registry
    port included) and puts the new tag after the last colon; the tag
    that the image walk records is that last piece. *)
Theorem patch_image_tag_tagged (repo tag new_tag : str) :
  ~ In (ch 58) tag ->
  patch_image_tag (repo ++ ch 58 :: tag) new_tag = repo ++ ch 58 :: new_tag
  /\ last (split_on (ch 58) (repo ++ ch 58 :: tag)) [] = tag.
Proof.
  intros H. unfold patch_image_tag.
  rewrite split_on_app, (split_on_absent _ _ H). split.
  - rewrite removelast_last, join_snoc by apply split_on_nonempty.
    change (s ":") with [ch 58].
    now rewrite (join_split_on (ch 58) repo).
  - apply last_last.
Qed.

Lemma patch_image_tag_tagged_witness :
  patch_image_tag (s "registry:5000/nginx:1.25") (s "T")
  = s "registry:5000/nginx:T"
  /\ last (split_on (ch 58) (s "registry:5000/nginx:1.25")) [] = s "1.25".
Proof.
  apply (patch_image_tag_tagged (s "registry:5000/nginx") (s "1.25") (s "T")).
  vm_compute. intuition discriminate.
Defined.

Lemma keys_set_mem {V} (k : str) (v : V) (d : PyDict.t V) :
  PyDict.mem k d = true -> PyDict.keys (PyDict.set k v d) = PyDict.keys d.
Proof.
  unfold PyDict.mem, PyDict.keys.
  induction d as [|[k0 v0] d IH]; cbn [PyDict.get PyDict.set map];
    [discriminate|].
  destruct (str_eqb k0 k); cbn [map fst]; [reflexivity|].
  intros H. now rewrite IH.
Qed.

(** X13. The image walk files its entry under the image string: after
    it the entry of the image names this service, and putting its
    recorded tag back with [patch_image_tag] gives the image again; when
    an earlier service had the same image, no entry is added and the
    earlier service's entry is the one replaced. *)
Theorem handle_service_image_entry name svc st :
  exists data,
    PyDict.get (image svc) (images_tags (handle_service_image name svc st))
    = Some data
    /\ i_service data = name
    /\ patch_image_tag (image svc) (i_tag data) = image svc
    /\ (PyDict.mem (image svc) (images_tags st) = true ->
        PyDict.keys (images_tags (handle_service_image name svc st))
        = PyDict.keys (images_tags st)).
Proof.
  unfold handle_service_image, with_image_tag. cbn [images_tags].
  rewrite get_set_same. eexists. split; [reflexivity|].
  split; [reflexivity|]. split; [|apply keys_set_mem].
  cbn [i_tag]. unfold patch_image_tag.
  pose proof (split_on_nonempty (ch 58) (image svc)) as N.
  transitivity (join (s ":") (split_on (ch 58) (image svc))).
  - f_equal. symmetry. now apply app_removelast_last.
  - apply (join_split_on (ch 58)).
Qed.

Lemma handle_service_image_entry_witness :
  PyDict.keys
    (images_tags
       (handle_service_image (s "worker") sample_web
          (handle_service_image (s "web") sample_web init_state)))
  = [s "nginx:1.25"].
Proof.
  destruct (handle_service_image_entry (s "worker") sample_web
              (handle_service_image (s "web") sample_web init_state))
    as (data & _ & _ & _ & H).
  rewrite H; reflexivity.
Defined.

(** ** Descriptor rewriter: users, networks, lists *)

Lemma sub_digit_runs_run (repl ds rest : str) :
  forallb is_digit ds = true -> starts_with_digit rest = false ->
  sub_digit_runs repl true (ds ++ rest) = sub_digit_runs repl false rest.
Proof.
  intros Hd Hr.
  induction ds as [|c ds IH]; cbn [app forallb sub_digit_runs] in *.
  - destruct rest as [|c rest]; [reflexivity|].
    cbn [sub_digit_runs starts_with_digit] in *. now rewrite Hr.
  - apply andb_true_iff in Hd as [Hc Hd]. rewrite Hc. auto.
Qed.

Lemma sub_digit_runs_first (repl ds rest : str) :
  ds <> [] -> forallb is_digit ds = true ->
  starts_with_digit rest = false ->
  sub_digit_runs repl false (ds ++ rest)
  = repl ++ sub_digit_runs repl false rest.
Proof.
  destruct ds as [|c ds]; intros Hne Hd Hr; [congruence|].
  cbn [forallb] in Hd. apply andb_true_iff in Hd as [Hc Hd].
  cbn [app sub_digit_runs]. rewrite Hc.
  now rewrite sub_digit_runs_run.
Qed.

Lemma sub_digit_runs_none (repl x : str) :
  forallb (fun c => negb (is_digit c)) x = true ->
  sub_digit_runs repl false x = x.
Proof.
  induction x as [|c x IH]; intros H; [reflexivity|].
  cbn [forallb sub_digit_runs] in *. apply andb_true_iff in H as [Hc H].
  apply negb_true_iff in Hc. rewrite Hc. now rewrite IH.
Qed.

(** X14. Without a uid (none, or zero) the user of a service is left as
    it is.  With a uid, a user without digits is left as it is, and in a
    user of the form [uid:gid] both numbers become the configured uid:
    the group id is replaced as well. *)
Theorem rewrite_user_spec cfg :
  ((uid cfg = None \/ uid cfg = Some 0%Z) ->
   forall user, rewrite_user cfg user = user)
  /\ (forall u,
        uid cfg = Some u -> u <> 0%Z ->
        (forall name_,
            forallb (fun c => negb (is_digit c)) name_ = true ->
            rewrite_user cfg (Some name_) = Some name_)
        /\ (forall ds1 ds2,
              ds1 <> [] -> forallb is_digit ds1 = true ->
              ds2 <> [] -> forallb is_digit ds2 = true ->
              rewrite_user cfg (Some (ds1 ++ ch 58 :: ds2))
              = Some (str_of_Z u ++ ch 58 :: str_of_Z u))).
Proof.
  unfold rewrite_user. split.
  - intros [-> | ->] user; [reflexivity|]. reflexivity.
  - intros u -> Hu. split.
    + intros name_ H. destruct u; [congruence| |];
        (destruct name_ as [|c r]; [reflexivity|];
         now rewrite sub_digit_runs_none).
    + intros ds1 ds2 N1 D1 N2 D2.
      assert (E : sub_digit_runs (str_of_Z u) false (ds1 ++ ch 58 :: ds2)
                  = str_of_Z u ++ ch 58 :: str_of_Z u).
      { rewrite sub_digit_runs_first by (auto; reflexivity).
        f_equal. cbn [sub_digit_runs].
        change (is_digit (ch 58)) with false. cbv iota. f_equal.
        rewrite <- (app_nil_r ds2).
        rewrite sub_digit_runs_first by (auto; reflexivity).
        apply app_nil_r. }
      destruct (ds1 ++ ch 58 :: ds2) as [|c r] eqn:X.
      { destruct ds1; discriminate. }
      destruct u; [congruence| |]; now rewrite E.
Qed.

Lemma rewrite_user_spec_witness :
  rewrite_user sample_config_proxy (Some (s "1001:1002"))
  = Some (s "1000:1000")
  /\ rewrite_user sample_config (Some (s "1001:1002"))
     = Some (s "1001:1002").
Proof.
  split.
  - apply (proj2 (proj2 (rewrite_user_spec sample_config_proxy) 1000%Z
                    eq_refl ltac:(discriminate))
             (s "1001") (s "1002")); (discriminate || reflexivity).
  - apply (proj1 (rewrite_user_spec sample_config)). now left.
Defined.




(** X16. A service of the original descriptor whose environment is a
    list with an item that holds no ["="] (a variable passed through from
    the host) makes the rewrite of the service raise [ValueError]. *)
Theorem rewrite_service_bare_item cfg model st name data items :
  r_environment data = Some (EnvList items) ->
  (exists item, In item items /\ ~ In (ch 61) item) ->
  rewrite_service cfg model st (name, data) = Raise ValueError.
Proof.
  intros He Hi. unfold rewrite_service, rewrite_environment. rewrite He.
  unfold env_to_dict.
  now rewrite (proj1 (proj2 (env_to_dict_from_ok_iff items [])) Hi).
Qed.

Lemma rewrite_service_bare_item_witness :
  rewrite_service sample_config scenario_model init_state
    (s "web",
     sample_raw_service (Some (EnvList [s "A=1"; s "HOME"])) None
       (s "nginx"))
  = Raise ValueError.
Proof.
  apply (rewrite_service_bare_item sample_config scenario_model init_state
           (s "web")
           (sample_raw_service (Some (EnvList [s "A=1"; s "HOME"])) None
              (s "nginx"))
           [s "A=1"; s "HOME"] eq_refl).
  exists (s "HOME"). split; [right; now left|].
  vm_compute. intuition discriminate.
Defined.

(** The volume strings against the mounts of the canonical service, by
    index. *)
Lemma rewrite_volume_list_cases st :
  forall vols canon,
    (List.length vols <= List.length canon ->
     rewrite_volume_list st canon vols
     = Ok (map (fun mv =>
                  match PyDict.get (m_source (fst mv)) (volume_defaults st) with
                  | Some k => replace (m_source (fst mv)) (placeholder k)
                                (snd mv)
                  | None => snd mv
                  end)
             (combine canon vols)))
    /\ (List.length canon < List.length vols ->
        rewrite_volume_list st canon vols = Raise IndexError).
Proof.
  induction vols as [|vol vols IH]; intros canon.
  - split; [|simpl; lia]. intros _. now destruct canon.
  - destruct canon as [|m canon].
    + split; [simpl; lia | reflexivity].
    + destruct (IH canon) as [I1 I2]. split.
      * intros H. cbn [rewrite_volume_list].
        rewrite I1 by (simpl in H; lia). reflexivity.
      * intros H. cbn [rewrite_volume_list].
        rewrite I2 by (simpl in H; lia). reflexivity.
Qed.

(** X17. The volume strings of a service are rewritten by index
    against the mounts of the canonical service of the same name.  A
    service without volume strings, or with an empty list of them, keeps
    its entry and the canonical descriptor is not looked at.  Otherwise:
    a name that is no service of the canonical descriptor raises
    [KeyError]; a canonical service whose [volumes] is [None] raises
    [TypeError]; one with fewer mounts than there are strings raises
    [IndexError]; and with at least as many mounts as strings, each
    string has the source of the mount of its index replaced by the
    placeholder of the volume default of that source, or is kept when
    the source has none: the result has one string per original string,
    and the strings come back unchanged when no source has a volume
    default. *)
Theorem rewrite_volumes_spec model st name :
  rewrite_volumes model st name None = Ok None
  /\ rewrite_volumes model st name (Some []) = Ok (Some [])
  /\ forall vol vols,
      match PyDict.get name (services model) with
      | None =>
          rewrite_volumes model st name (Some (vol :: vols)) = Raise KeyError
      | Some svc =>
          match volumes_field svc with
          | None =>
              rewrite_volumes model st name (Some (vol :: vols))
              = Raise TypeError
          | Some canon =>
              (List.length canon < List.length (vol :: vols) ->
               rewrite_volumes model st name (Some (vol :: vols))
               = Raise IndexError)
              /\ (List.length (vol :: vols) <= List.length canon ->
                  exists l,
                    rewrite_volumes model st name (Some (vol :: vols))
                    = Ok (Some l)
                    /\ List.length l = List.length (vol :: vols)
                    /\ (forall i m v,
                          nth_error canon i = Some m ->
                          nth_error (vol :: vols) i = Some v ->
                          nth_error l i
                          = Some
                              match PyDict.get (m_source m)
                                      (volume_defaults st) with
                              | Some k =>
                                  replace (m_source m) (placeholder k) v
                              | None => v
                              end)
                    /\ ((forall m, In m canon ->
                           PyDict.get (m_source m) (volume_defaults st)
                           = None) ->
                        l = vol :: vols))
          end
      end.
Proof.
  split; [reflexivity|]. split; [reflexivity|]. intros vol vols.
  unfold rewrite_volumes, lookup.
  destruct (PyDict.get name (services model)) as [svc|]; [|reflexivity].
  cbn [bind]. destruct (volumes_field svc) as [canon|]; [|reflexivity].
  destruct (rewrite_volume_list_cases st (vol :: vols) canon) as [I1 I2].
  split.
  - intros H. now rewrite (I2 H).
  - intros H. rewrite (I1 H). cbn [bind]. eexists. split; [reflexivity|].
    split; [|split].
    + rewrite length_map, length_combine. lia.
    + intros i m v Hm Hv.
      rewrite (map_nth_error _ i (combine canon (vol :: vols))
                 (d := (m, v))); [reflexivity|].
      clear - Hm Hv. revert canon Hm Hv.
      generalize (vol :: vols) as l.
      induction i as [|i IH]; intros l canon Hm Hv;
        destruct canon as [|m0 canon]; destruct l as [|v0 l];
        try discriminate; cbn [nth_error combine] in *.
      * congruence.
      * now apply IH.
    + intros Hn. clear I1 I2. revert canon H Hn.
      generalize (vol :: vols) as l.
      induction l as [|v0 l IH]; intros canon H Hn;
        destruct canon as [|m0 canon]; try reflexivity;
        [simpl in H; lia|].
      cbn [combine map fst snd].
      rewrite (Hn m0 (or_introl eq_refl)). f_equal.
      apply IH; [simpl in H; lia|]. intros m Hm. apply Hn. now right.
Qed.

Lemma rewrite_volumes_spec_witness :
  rewrite_volumes bind_model init_state (s "web") (Some [s "./data:/data"])
  = Ok (Some [s "./data:/data"])
  /\ rewrite_volumes bind_model init_state (s "web")
       (Some [s "./data:/data"; s "./more:/more"])
     = Raise IndexError.
Proof.
  pose proof (proj2 (proj2 (rewrite_volumes_spec bind_model init_state
                              (s "web")))) as H.
  split.
  - destruct (H (s "./data:/data") []) as [_ H2].
    destruct H2 as (l & E & _ & _ & U); [simpl; lia|].
    rewrite E. f_equal. f_equal. apply U. intros m _. reflexivity.
  - destruct (H (s "./data:/data") [s "./more:/more"]) as [H1 _].
    apply H1. simpl. lia.
Defined.

Lemma nth_error_combine {A B : Type} :
  forall i (l1 : list A) (l2 : list B) a b,
    nth_error l1 i = Some a -> nth_error l2 i = Some b ->
    nth_error (combine l1 l2) i = Some (a, b).
Proof.
  induction i as [|i IH]; intros [|a0 l1] [|b0 l2] a b Ha Hb;
    try discriminate; cbn [nth_error combine] in *.
  - congruence.
  - now apply IH.
Qed.

(** X18. When neither the prefix nor the service name holds a
    backslash: the port lines are paired with the recorded exposed ports
    of the service, by index, and the shorter list decides.  A service
    without port line or without recorded port keeps its port entry as
    it is; otherwise the port list is replaced by one line for each
    pair, the line with its leading digits replaced by the placeholder
    of the port of the same index, and the lines beyond the recorded
    ports are dropped. *)
Theorem rewrite_ports_spec cfg st name ports_ :
  ~ In (ch 92) (defaults_prefix cfg) -> ~ In (ch 92) name ->
  let lines := match ports_ with Some l => l | None => [] end in
  let exposed := exposed_ports st name in
  (lines = [] \/ exposed = [] ->
   rewrite_ports cfg st name ports_ = Ok ports_)
  /\ (lines <> [] -> exposed <> [] ->
      exists l,
        rewrite_ports cfg st name ports_ = Ok (Some l)
        /\ List.length l
           = Nat.min (List.length lines) (List.length exposed)
        /\ forall i line p,
             nth_error lines i = Some line ->
             nth_error exposed i = Some p ->
             nth_error l i
             = Some (sub_leading_digits line
                       (placeholder (variable_from_port cfg name p true)))).
Proof.
  intros Hb Hn lines exposed.
  rewrite (rewrite_ports_literal cfg st name ports_ Hb Hn).
  fold lines. fold exposed. split.
  - intros [-> | ->]; [reflexivity|]. now rewrite combine_nil.
  - intros Hl He.
    destruct lines as [|line0 lines0] eqn:El; [congruence|].
    destruct exposed as [|p0 exposed0] eqn:Ee; [congruence|].
    rewrite <- El, <- Ee.
    assert (C : combine lines exposed
                = (line0, p0) :: combine lines0 exposed0)
      by (now rewrite El, Ee).
    eexists. split; [rewrite C; rewrite <- C; reflexivity|].
    split.
    + now rewrite length_map, length_combine.
    + intros i line p Hi Hp.
      apply (map_nth_error
               (fun pe => sub_leading_digits (fst pe)
                            (port_placeholder cfg name (snd pe)))
               i (combine lines exposed) (d := (line, p))).
      now apply nth_error_combine.
Qed.

Lemma rewrite_ports_spec_witness :
  exists l,
    rewrite_ports sample_config
      (with_exposed_port (s "web") 8080 init_state) (s "web")
      (Some [s "8080:80"; s "9000"]) = Ok (Some l)
    /\ List.length l = 1
    /\ nth_error l 0 = Some (s "{{ app_host_port_web_8080 }}:80").
Proof.
  destruct (rewrite_ports_spec sample_config
              (with_exposed_port (s "web") 8080 init_state) (s "web")
              (Some [s "8080:80"; s "9000"])) as [_ H].
  - vm_compute. intuition discriminate.
  - vm_compute. intuition discriminate.
  - destruct H as (l & E & L & N); [discriminate | discriminate |].
    exists l. split; [exact E|]. split; [exact L|].
    apply (N 0 (s "8080:80") 8080%Z); reflexivity.
Defined.

(** ** What the whole walk keeps *)

Section WalkInvariant.

(** A property of the defaults list and of the seen keys that every
    registration keeps is kept by the walk of all the services. *)
Variable cfg : Config.
Variable P : State -> Prop.

Hypothesis P_frame :
  forall st st',
    defaults st' = defaults st ->
    services_by_env st' = services_by_env st -> P st -> P st'.

Hypothesis P_add :
  forall key val name sec ef st st',
    (sec = true -> Re.search true patt key = true) ->
    add_to_defaults cfg key val name sec ef st = Ok st' -> P st -> P st'.

Lemma for_each_keeps {A : Type} (body : State -> A -> result State) :
  (forall st a st', body st a = Ok st' -> P st -> P st') ->
  forall items st st', for_each body items st = Ok st' -> P st -> P st'.
Proof.
  intros Hbody items.
  induction items as [|a items IH]; intros st st' H; cbn [for_each] in H.
  - injection H as <-. auto.
  - destruct (body st a) as [st1|] eqn:E; [|discriminate]. cbn [bind] in H.
    intros HP. eapply IH; eauto.
Qed.

Lemma handle_key_value_keeps name ef st kv st' :
  handle_key_value cfg name ef st kv = Ok st' -> P st -> P st'.
Proof.
  destruct kv as [key value].
  unfold handle_key_value, handle_secret_env_var, handle_env_var.
  destruct (is_secret name key value None) eqn:E; apply P_add.
  - intros _. unfold is_secret in E.
    destruct (Re.search true patt key); [reflexivity | discriminate].
  - intros X. discriminate X.
Qed.

Lemma handle_svc_environment_keeps final name svc st st' :
  handle_svc_environment cfg final name svc st = Ok st' -> P st -> P st'.
Proof.
  unfold handle_svc_environment. destruct (environment svc) as [env|].
  - destruct (lookup name (f_services final)) as [raw|]; [|discriminate].
    cbn [bind].
    destruct (for_each (index_env_file cfg) (env_file_list (r_env_file raw)) [])
      as [names|]; [|discriminate].
    cbn [bind]. apply for_each_keeps. intros a b c. apply handle_key_value_keeps.
  - intros H. now injection H as <-.
Qed.

Lemma handle_svc_env_file_keeps name path st st' :
  handle_svc_env_file cfg name path st = Ok st' -> P st -> P st'.
Proof.
  unfold handle_svc_env_file.
  destruct (fs cfg path) as [| |content]; cbn [read_text bind].
  - intros H. now injection H as <-.
  - intros H. now injection H as <-.
  - destruct (env_from_text content false) as [env|].
    + apply for_each_keeps. intros a b c. apply handle_key_value_keeps.
    + intros H. now injection H as <-.
Qed.

Lemma handle_svc_volume_keeps name vols st vol st' :
  handle_svc_volume cfg name vols st vol = Ok st' -> P st -> P st'.
Proof.
  unfold handle_svc_volume. destruct (m_type vol).
  - destruct (handle_svc_env_file cfg name (m_source vol)
                (with_backup_path (m_source vol) st)) as [st1|] eqn:E;
      [|discriminate].
    cbn [bind]. intros H HP. injection H as <-.
    apply (P_frame st1); [reflexivity | reflexivity |].
    apply (handle_svc_env_file_keeps _ _ _ _ E).
    now apply (P_frame st).
  - destruct vols as [d|]; [|discriminate].
    destruct (lookup (m_source vol) d) as [[v|]|]; try discriminate.
    cbn [bind]. intros H HP. injection H as <-. now apply (P_frame st).
  - intros H. now injection H as <-.
Qed.

Lemma handle_svc_port_keeps_P name st port st' :
  handle_svc_port cfg name st port = Ok st' -> P st -> P st'.
Proof.
  rewrite handle_svc_port_host_port.
  destruct (host_port port) as [[p|]|]; intros H HP; [| |discriminate].
  - refine (P_add _ _ _ _ _ _ _ _ H _);
      [intros X; discriminate X | now apply (P_frame st)].
  - now injection H as <-.
Qed.

Lemma handle_services_keeps final model st st' :
  handle_services cfg final model st = Ok st' -> P st -> P st'.
Proof.
  unfold handle_services. apply for_each_keeps.
  intros st0 [svc_name svc] st0'. unfold handle_service.
  destruct (handle_svc_environment cfg final svc_name svc st0)
    as [st1|] eqn:E1; [|discriminate]. cbn [bind].
  destruct (handle_svc_volumes cfg svc_name svc (top_volumes model) st1)
    as [st2|] eqn:E2; [|discriminate]. cbn [bind].
  destruct (handle_svc_ports cfg svc_name svc st2)
    as [st3|] eqn:E3; [|discriminate]. cbn [bind].
  intros H HP. injection H as <-.
  apply (P_frame st3); [reflexivity | reflexivity |].
  unfold handle_svc_ports in E3.
  apply (for_each_keeps _ (handle_svc_port_keeps_P svc_name) _ _ _ E3).
  unfold handle_svc_volumes in E2.
  apply (for_each_keeps _ (handle_svc_volume_keeps svc_name _) _ _ _ E2).
  now apply (handle_svc_environment_keeps _ _ _ _ _ E1).
Qed.

End WalkInvariant.

(** A registration keeps the secret records classified when its flag
    is the verdict of the classifier or is false. *)
Lemma add_to_defaults_classified cfg key val name sec ef st st' :
  (sec = true -> Re.search true patt key = true) ->
  add_to_defaults cfg key val name sec ef st = Ok st' ->
  classified st -> classified st'.
Proof.
  intros Hsec H HP.
  apply add_to_defaults_cases in H as [[_ ->]|[_ H]]; [exact HP|].
  destruct H as (r0 & st0 & -> & Hd & _ & _ & _ & _ & Ho & _ & Hs & _).
  intros r k Hin Hk Hf. cbn [defaults with_service_of_env with_default] in Hin.
  rewrite Hd in Hin. apply in_app_or in Hin as [Hin|[<-|[]]].
  - now apply (HP r k).
  - rewrite Ho in Hk. injection Hk as <-. apply Hsec. congruence.
Qed.

Lemma classified_frame (st st' : State) :
  defaults st' = defaults st ->
  services_by_env st' = services_by_env st ->
  classified st -> classified st'.
Proof. intros E _ HP r k. rewrite E. apply HP. Qed.

(** X30. The walk flags as secret only keys that the secret classifier
    accepts: this holds of the empty registry and is kept by the
    environment walk, the volume walk and the port walk of a service,
    and by the walk of all the services. *)
Theorem walk_classified cfg final model :
  classified init_state
  /\ (forall name svc st st',
        handle_svc_environment cfg final name svc st = Ok st' ->
        classified st -> classified st')
  /\ (forall name data vols st st',
        handle_svc_volumes cfg name data vols st = Ok st' ->
        classified st -> classified st')
  /\ (forall name data st st',
        handle_svc_ports cfg name data st = Ok st' ->
        classified st -> classified st')
  /\ (forall st st',
        handle_services cfg final model st = Ok st' ->
        classified st -> classified st').
Proof.
  pose proof classified_frame as F.
  pose proof (add_to_defaults_classified cfg) as A.
  split; [apply classified_init|]. split; [|split; [|split]].
  - intros name svc st st'.
    now apply (handle_svc_environment_keeps cfg classified A).
  - intros name data vols st st'. unfold handle_svc_volumes.
    apply (for_each_keeps classified).
    intros st0 vol st0'.
    now apply (handle_svc_volume_keeps cfg classified F A).
  - intros name data st st'. unfold handle_svc_ports.
    apply (for_each_keeps classified).
    intros st0 port st0'.
    now apply (handle_svc_port_keeps_P cfg classified F A).
  - intros st st'. now apply (handle_services_keeps cfg classified F A).
Qed.

Lemma walk_classified_witness :
  exists st',
    handle_services sample_config scenario_final scenario_model init_state
    = Ok st'
    /\ classified st'.
Proof.
  eexists. split; [vm_compute; reflexivity|].
  destruct (walk_classified sample_config scenario_final scenario_model)
    as (H0 & _ & _ & _ & H).
  apply (H init_state _ eq_refl H0).
Defined.

Lemma add_to_defaults_registered cfg key val name sec ef st st' :
  add_to_defaults cfg key val name sec ef st = Ok st' ->
  Forall (registered_record cfg) (defaults st) ->
  Forall (registered_record cfg) (defaults st').
Proof.
  unfold add_to_defaults. destruct (seen key st).
  - intros H. now injection H as <-.
  - destruct sec.
    + unfold get_secret_expr.
      destruct (py_len val) as [n|]; [|discriminate]. cbn [bind].
      intros H HF.
      assert (R : forall st1, defaults st1 = defaults st ->
                  Forall (registered_record cfg)
                    (defaults
                       (with_service_of_env key name
                          (with_default
                             {| d_key := variable_from_env cfg key;
                                d_original_key := Some key;
                                d_value := val;
                                d_is_secret := true;
                                d_service := name;
                                d_secret_path :=
                                  Some (get_secret_path cfg name key);
                                d_secret_expr :=
                                  Some (s "{{ lookup('community.general.passwordstore', '"
                                          ++ get_secret_path cfg name key
                                          ++ s " create=true length="
                                          ++ str_of_Z (Z.max n (min_secret_length cfg))
                                          ++ s "') }}");
                                d_env_file :=
                                  match ef with
                                  | Some (c :: f) => Some (c :: f)
                                  | _ => None
                                  end |} st1)))).
      { intros st1 E. cbn [defaults with_service_of_env with_default].
        rewrite E. apply Forall_app. split; [exact HF|].
        constructor; [|constructor]. exists key. cbn.
        repeat split. eauto. }
      destruct ef as [[|c f]|]; cbn [bind] in H.
      * injection H as <-. now apply R.
      * destruct (file_name_id (c :: f)) as [id|]; [|discriminate].
        cbn [bind] in H. injection H as <-. now apply R.
      * injection H as <-. now apply R.
    + cbn [bind]. intros H HF.
      assert (R : forall st1, defaults st1 = defaults st ->
                  Forall (registered_record cfg)
                    (defaults
                       (with_service_of_env key name
                          (with_default
                             {| d_key := variable_from_env cfg key;
                                d_original_key := Some key;
                                d_value := val;
                                d_is_secret := false;
                                d_service := name;
                                d_secret_path := None;
                                d_secret_expr := None;
                                d_env_file :=
                                  match ef with
                                  | Some (c :: f) => Some (c :: f)
                                  | _ => None
                                  end |} st1)))).
      { intros st1 E. cbn [defaults with_service_of_env with_default].
        rewrite E. apply Forall_app. split; [exact HF|].
        constructor; [|constructor]. exists key. cbn. repeat split. }
      destruct ef as [[|c f]|]; cbn [bind] in H.
      * injection H as <-. now apply R.
      * destruct (file_name_id (c :: f)) as [id|]; [|discriminate].
        cbn [bind] in H. injection H as <-. now apply R.
      * injection H as <-. now apply R.
Qed.

(** The defaults list of a completed run: the records of the walk, then
    the releases record. *)
Lemma main_defaults cfg model final out :
  main cfg model final = Ok out ->
  exists st,
    handle_services cfg final model init_state = Ok st
    /\ bootstrap_data out = add_releases_to_defaults cfg st
    /\ Forall (registered_record cfg) (defaults st).
Proof.
  unfold main. intros H.
  destruct (handle_services cfg final model init_state) as [st|] eqn:HS;
    [|discriminate]. cbn [bind] in H.
  destruct (create_final_compose cfg model
              (add_releases_to_defaults cfg st) final); [|discriminate].
  cbn [bind] in H. injection H as <-. exists st.
  split; [reflexivity|]. split; [reflexivity|].
  refine (handle_services_keeps cfg
            (fun st => Forall (registered_record cfg) (defaults st))
            _ _ final model init_state st HS _).
  - intros st1 st2 E _ HP. now rewrite E.
  - intros key val name sec ef st1 st2 _. apply add_to_defaults_registered.
  - constructor.
Qed.

(** X19. In the output of a completed run the defaults list is the
    records of the walk followed by the releases record.  Each record of
    the walk has a source key, has the prefixed normalized source key as
    its key, and carries a secret path and a lookup expression exactly
    when it is secret; the releases record is the only one without a
    source key. *)
Theorem main_defaults_shape cfg model final out :
  main cfg model final = Ok out ->
  exists walked r,
    defaults (bootstrap_data out) = walked ++ [r]
    /\ Forall (registered_record cfg) walked
    /\ d_original_key r = None
    /\ d_key r = variable_from_env cfg releases_key
    /\ d_is_secret r = false
    /\ d_service r = s "None".
Proof.
  intros H. apply main_defaults in H as (st & _ & -> & HF).
  eexists (defaults st), _. split; [reflexivity|]. repeat split. exact HF.
Qed.

Lemma main_defaults_shape_witness :
  exists out walked r,
    main sample_config scenario_model scenario_final = Ok out
    /\ defaults (bootstrap_data out) = walked ++ [r]
    /\ List.length walked = 2
    /\ d_key r = s "app_releases".
Proof.
  eexists.
  destruct (main_defaults_shape sample_config scenario_model scenario_final
              _ eq_refl) as (walked & r & E & _ & _ & K & _).
  exists walked, r. split; [reflexivity|]. split; [exact E|].
  split; [|exact K].
  apply (f_equal (@List.length _)) in E. rewrite length_app in E.
  cbn in E. lia.
Defined.

(** X20. Every key of the defaults list of a completed run starts with
    the prefix of the program, which ends with an underscore. *)
Theorem main_keys_prefixed cfg model final out :
  main cfg model final = Ok out ->
  forall r,
    In r (defaults (bootstrap_data out)) ->
    startswith (d_key r) (defaults_prefix cfg) = true.
Proof.
  intros H r Hin. apply main_defaults in H as (st & _ & E & HF).
  rewrite E in Hin. cbn [add_releases_to_defaults with_default defaults] in Hin.
  apply startswith_spec.
  apply in_app_or in Hin as [Hin | [<- | []]].
  - rewrite Forall_forall in HF. destruct (HF r Hin) as (key & _ & K & _).
    rewrite K. unfold variable_from_env. eauto.
  - cbn [d_key]. unfold variable_from_env. eauto.
Qed.

Lemma main_keys_prefixed_witness :
  exists out r,
    main sample_config scenario_model scenario_final = Ok out
    /\ In r (defaults (bootstrap_data out))
    /\ startswith (d_key r) (s "app_") = true.
Proof.
  eexists _, _. split; [vm_compute; reflexivity|].
  split; [left; reflexivity|].
  apply (main_keys_prefixed sample_config scenario_model scenario_final
           _ eq_refl).
  now left.
Defined.

Lemma records_of_app key l1 l2 :
  records_of key (l1 ++ l2) = records_of key l1 ++ records_of key l2.
Proof. apply filter_app. Qed.

Lemma add_to_defaults_owners cfg key val name sec ef st st' :
  add_to_defaults cfg key val name sec ef st = Ok st' ->
  owners_ok st /\ registry_ok cfg st ->
  owners_ok st' /\ registry_ok cfg st'.
Proof.
  intros H [Ho Hr]. split; [|eapply add_to_defaults_ok; eauto].
  apply add_to_defaults_cases in H as [[_ ->]|[E H]]; [exact Ho|].
  destruct H as (r & st1 & -> & Hd & Hs & _ & _ & _ & Hk & _ & _ & Hn).
  intros k l. cbn [services_by_env defaults with_service_of_env with_default].
  rewrite Hd, Hs, records_of_app.
  destruct (list_eq_dec ascii_dec key k) as [<-|Hne].
  - rewrite get_set_same. intros G. injection G as <-.
    specialize (Hr key). rewrite E in Hr. rewrite Hr.
    exists r. cbn [records_of filter]. apply registered_for_eq in Hk.
    rewrite Hk, Hn. split; [|reflexivity].
    unfold seen in E.
    destruct (PyDict.get key (services_by_env st)) as [[|x l]|];
      [reflexivity | discriminate | reflexivity].
  - rewrite get_set_other by exact Hne. intros G.
    destruct (Ho k l G) as (r0 & -> & R0). exists r0.
    split; [reflexivity|]. rewrite R0. cbn [records_of filter].
    destruct (registered_for k r) eqn:X; [|reflexivity].
    apply registered_for_eq in X. congruence.
Qed.

(** X21. In the output of a completed run every entry of
    [services_by_env] lists exactly one service, and the key of the entry
    has exactly one record, owned by that service: a service that
    declares a key already seen is not listed. *)
Theorem main_owners cfg model final out :
  main cfg model final = Ok out ->
  forall k l,
    PyDict.get k (services_by_env (bootstrap_data out)) = Some l ->
    exists r,
      l = [d_service r]
      /\ records_of k (defaults (bootstrap_data out)) = [r].
Proof.
  intros H k l G. apply main_defaults in H as (st & HS & E & _).
  rewrite E in *.
  cbn [add_releases_to_defaults with_default defaults services_by_env] in *.
  assert (P : owners_ok st /\ registry_ok cfg st).
  { refine (handle_services_keeps cfg
              (fun st => owners_ok st /\ registry_ok cfg st)
              _ _ final model init_state st HS _).
    - intros st1 st2 Ed Es [Ho Hr]. split.
      + intros k0 l0. rewrite Ed, Es. apply Ho.
      + intros k0. specialize (Hr k0). unfold seen in *.
        now rewrite Ed, Es.
    - intros key val name sec ef st1 st2 _. apply add_to_defaults_owners.
    - split; [intros k0 l0 G0; discriminate | apply registry_ok_init]. }
  destruct (proj1 P k l G) as (r & -> & R). exists r.
  split; [reflexivity|]. rewrite records_of_app, R. reflexivity.
Qed.

Lemma main_owners_witness :
  exists out r,
    main sample_config scenario_model scenario_final = Ok out
    /\ [s "web"] = [d_service r]
    /\ records_of (s "DB_PASSWORD") (defaults (bootstrap_data out)) = [r].
Proof.
  eexists.
  destruct (main_owners sample_config scenario_model scenario_final _ eq_refl
              (s "DB_PASSWORD") [s "web"] eq_refl) as (r & E & R).
  exists r. repeat split; assumption.
Defined.

(** ** Volumes and backup paths *)

(** X22. When the volume walk of a service succeeds, the backup paths
    gain, in the order of the mounts, the source of every bind mount
    (whether or not its file exists or yields variables) and the path
    under [/var/lib/docker/volumes] of every named volume; nothing else
    is added and nothing is removed. *)
Theorem handle_svc_volumes_backup_paths cfg name data vols st st' :
  handle_svc_volumes cfg name data vols st = Ok st' ->
  backup_paths st'
  = backup_paths st ++ flat_map (mount_backup_paths vols) (volumes data).
Proof.
  unfold handle_svc_volumes. generalize (volumes data) as mounts.
  intros mounts. revert st.
  induction mounts as [|vol mounts IH]; intros st H; cbn [for_each] in H.
  - injection H as <-. cbn. now rewrite app_nil_r.
  - destruct (handle_svc_volume cfg name vols st vol) as [st1|] eqn:E;
      [|discriminate].
    cbn [bind] in H. apply IH in H.
    apply handle_svc_volume_backup_paths in E.
    rewrite H, E. cbn [flat_map]. now rewrite app_assoc.
Qed.

Lemma handle_svc_volumes_backup_paths_witness :
  exists st',
    handle_svc_volumes sample_config (s "web")
      {| environment := None;
         volumes_field := Some [{| m_type := Bind; m_source := s "./data" |};
                     {| m_type := NamedVolume; m_source := s "db" |}];
         ports := []; image := s "nginx" |}
      (Some [(s "db", Some {| v_name := s "app_db" |})]) init_state = Ok st'
    /\ backup_paths st' = [s "./data"; s "/var/lib/docker/volumes/app_db"].
Proof.
  eexists. split; [vm_compute; reflexivity|].
  apply (handle_svc_volumes_backup_paths sample_config (s "web")
           {| environment := None;
              volumes_field := Some [{| m_type := Bind; m_source := s "./data" |};
                          {| m_type := NamedVolume; m_source := s "db" |}];
              ports := []; image := s "nginx" |}
           (Some [(s "db", Some {| v_name := s "app_db" |})]) init_state).
  reflexivity.
Defined.

(** X23. The scan of a bind-mounted file gives up as a whole: when the
    file is absent or unreadable, or when it has the marker and one of
    its lines that is neither empty nor a comment holds no ["="], the scan
    returns the state as it was, the well-formed lines of the file
    included. *)
Theorem handle_svc_env_file_gives_up cfg name path st :
  (fs cfg path = Absent
   \/ fs cfg path = Unreadable
   \/ exists content line,
       fs cfg path = File content
       /\ first_line_is_marked content = true
       /\ In line (splitlines content)
       /\ line <> [] /\ startswith line (s "#") = false
       /\ ~ In (ch 61) line) ->
  handle_svc_env_file cfg name path st = Ok st.
Proof.
  unfold handle_svc_env_file.
  intros [-> | [-> | (content & line & -> & Hm & Hl & Hne & Hc & He)]];
    try reflexivity.
  cbn [read_text bind].
  assert (R : env_from_text content false = Raise ValueError).
  { unfold env_from_text, env_to_dict.
    apply (proj1 (proj2 (env_to_dict_from_ok_iff _ []))).
    exists line. split; [|exact He].
    unfold iterate, first_line_is_marked in *.
    destruct (splitlines content) as [|line0 rest]; [destruct Hl|].
    rewrite Hm. cbn [negb andb]. apply filter_In. split; [exact Hl|].
    destruct line; [congruence|]. now rewrite Hc. }
  now rewrite R.
Qed.

Lemma handle_svc_env_file_gives_up_witness :
  handle_svc_env_file sample_config_broken_file (s "web") (s "./conf.env")
    init_state
  = Ok init_state.
Proof.
  apply (handle_svc_env_file_gives_up sample_config_broken_file (s "web")
           (s "./conf.env") init_state).
  right; right. eexists _, (s "BROKEN"). split; [reflexivity|].
  split; [reflexivity|]. split; [right; right; now left|].
  split; [discriminate|]. split; [reflexivity|].
  vm_compute. intuition discriminate.
Defined.

(** ** Env-file identifiers, secrets, releases *)

Lemma path_last_part_base (dir base : str) :
  ~ In (ch 47) base -> base <> [] -> base <> s "." ->
  path_last_part (dir ++ ch 47 :: base) = Some base
  /\ path_last_part base = Some base.
Proof.
  intros Hs Hn Hd.
  assert (K : (negb (str_eqb base [] || str_eqb base (s ".")))%bool = true).
  { apply str_eqb_neq in Hn, Hd. now rewrite Hn, Hd. }
  unfold path_last_part. split.
  - rewrite split_on_app, (split_on_absent _ _ Hs), filter_app.
    cbn [filter]. rewrite K. now rewrite rev_app_distr.
  - rewrite (split_on_absent _ _ Hs). cbn [filter]. now rewrite K.
Qed.

(** X24. The identifier of an env file depends on the last component of
    its path only: a path that ends with a slash and a file name has the
    identifier of the file name. *)
Theorem file_name_id_basename (dir base : str) :
  ~ In (ch 47) base -> base <> [] -> base <> s "." ->
  file_name_id (dir ++ ch 47 :: base) = file_name_id base
  /\ file_name_id base
     = Ok (normalize_key_and_name (join (s "_") (split_on (ch 46) base))).
Proof.
  intros Hs Hn Hd. unfold file_name_id.
  destruct (path_last_part_base dir base Hs Hn Hd) as [-> ->].
  split; reflexivity.
Qed.

Lemma file_name_id_basename_witness :
  file_name_id (s "./config/app.env") = file_name_id (s "app.env")
  /\ file_name_id (s "app.env") = Ok (s "app_env").
Proof.
  apply (file_name_id_basename (s "./config") (s "app.env"));
    [vm_compute; intuition discriminate | discriminate | discriminate].
Defined.

(** X25. Registering a secret under a key not seen before: with a text
    value it appends one secret record whose path is the template
    filled with the role, the service and the key, and whose lookup
    expression asks for a length that is the larger of the length of the
    value and the minimum secret length; with a number as value,
    [len(value)] raises [TypeError]. *)
Theorem add_to_defaults_secret cfg key name st :
  seen key st = false ->
  (forall x,
      exists st' r n,
        add_to_defaults cfg key (VStr x) name true None st = Ok st'
        /\ defaults st' = defaults st ++ [r]
        /\ d_is_secret r = true /\ d_value r = VStr x
        /\ d_secret_path r = Some (get_secret_path cfg name key)
        /\ d_secret_expr r
           = Some (s "{{ lookup('community.general.passwordstore', '"
                     ++ get_secret_path cfg name key
                     ++ s " create=true length=" ++ str_of_Z n
                     ++ s "') }}")
        /\ n = Z.max (Z.of_nat (List.length x)) (min_secret_length cfg)
        /\ (min_secret_length cfg <= n)%Z
        /\ (Z.of_nat (List.length x) <= n)%Z)
  /\ (forall z,
        add_to_defaults cfg key (VInt z) name true None st
        = Raise TypeError).
Proof.
  intros E. unfold add_to_defaults, get_secret_expr. rewrite E. split.
  - intros x. cbn [py_len bind fst snd].
    eexists _, _, _. split; [reflexivity|].
    cbn [defaults with_service_of_env with_default d_is_secret d_value
           d_secret_path d_secret_expr].
    repeat split; lia.
  - intros z. reflexivity.
Qed.

Lemma add_to_defaults_secret_witness :
  exists st' r,
    add_to_defaults sample_config (s "DB_PASSWORD")
      (VStr (s "a-password-of-20-chr")) (s "web") true None init_state
    = Ok st'
    /\ defaults st' = [r]
    /\ d_secret_path r = Some (s "services/docker_/web/DB_PASSWORD")
    /\ d_secret_expr r
       = Some (s "{{ lookup('community.general.passwordstore', 'services/docker_/web/DB_PASSWORD create=true length=20') }}").
Proof.
  destruct (proj1 (add_to_defaults_secret sample_config (s "DB_PASSWORD")
                     (s "web") init_state eq_refl)
              (s "a-password-of-20-chr"))
    as (st' & r & n & E & D & _ & _ & Pth & Ex & N & _).
  exists st', r. split; [exact E|]. split; [exact D|]. split; [exact Pth|].
  rewrite Ex, N. reflexivity.
Defined.

Lemma releases_fold_mem (items : PyDict.t ImageData) :
  forall acc k,
    (PyDict.mem k acc = true
     \/ exists img data, In (img, data) items /\ i_service data = k) ->
    PyDict.mem k
      (fold_left
         (fun acc kv => PyDict.set (i_service (snd kv)) (i_tag (snd kv)) acc)
         items acc) = true.
Proof.
  induction items as [|[img0 data0] items IH]; intros acc k H;
    cbn [fold_left snd].
  - destruct H as [H | (img & data & [] & _)]. exact H.
  - apply IH. destruct H as [H | (img & data & [Hin|Hin] & Hk)].
    + left. unfold PyDict.mem in *.
      destruct (list_eq_dec ascii_dec (i_service data0) k) as [->|Hne].
      * now rewrite get_set_same.
      * now rewrite get_set_other.
    + injection Hin as <- <-. subst k. left. unfold PyDict.mem.
      now rewrite get_set_same.
    + right. eauto.
Qed.

Lemma releases_fold_origin (items : PyDict.t ImageData) :
  forall acc k v,
    In (k, v)
      (fold_left
         (fun acc kv => PyDict.set (i_service (snd kv)) (i_tag (snd kv)) acc)
         items acc) ->
    In (k, v) acc
    \/ exists img data,
        In (img, data) items /\ i_service data = k /\ i_tag data = v.
Proof.
  induction items as [|[img0 data0] items IH]; intros acc k v H;
    cbn [fold_left snd] in H.
  - now left.
  - apply IH in H as [H | (img & data & Hin & Hk & Hv)].
    + apply In_set in H as [H | [-> ->]]; [now left|].
      right. exists img0, data0. split; [now left | split; reflexivity].
    + right. exists img, data. split; [now right | split; assumption].
Qed.

(** X26. The value of the releases record is a mapping that has an entry
    for the service of every image entry, and whose every entry is the
    service and the tag of an image entry. *)
Theorem add_releases_to_defaults_value cfg st :
  exists r,
    defaults (add_releases_to_defaults cfg st) = defaults st ++ [r]
    /\ d_value r = VDict (releases_value st)
    /\ (forall img data,
          In (img, data) (images_tags st) ->
          PyDict.mem (i_service data) (releases_value st) = true)
    /\ (forall name tag,
          In (name, tag) (releases_value st) ->
          exists img data,
            In (img, data) (images_tags st)
            /\ i_service data = name /\ i_tag data = tag).
Proof.
  eexists. split; [reflexivity|]. split; [reflexivity|]. split.
  - intros img data Hin. apply releases_fold_mem. right. eauto.
  - intros name tag Hin. apply releases_fold_origin in Hin as [[]|H].
    exact H.
Qed.

(** ** Volume defaults *)

Lemma vol_id_char_not_newline (c : ascii) :
  is_vol_id_char c = true -> Re.is_newline c = false.
Proof.
  destruct c as [[] [] [] [] [] [] [] []]; vm_compute; congruence.
Qed.

Lemma take_while_app (f : ascii -> bool) (a b : str) :
  forallb f a = true ->
  take_while f (a ++ b) = a ++ take_while f b.
Proof.
  induction a as [|c a IH]; intros H; [reflexivity|].
  cbn [forallb app take_while] in *. apply andb_true_iff in H as [Hc H].
  rewrite Hc. now rewrite IH.
Qed.

Lemma search_vol_id_base (dir base : str) :
  base <> [] -> forallb is_vol_id_char base = true ->
  search_vol_id (dir ++ ch 47 :: base) = Some base.
Proof.
  intros Hn Hb. unfold search_vol_id.
  assert (Hr : forallb is_vol_id_char (rev base) = true).
  { rewrite forallb_forall in *. intros c Hc. apply Hb.
    now apply in_rev. }
  assert (R : rev (dir ++ ch 47 :: base) = rev base ++ ch 47 :: rev dir).
  { rewrite rev_app_distr. cbn [rev]. now rewrite <- app_assoc. }
  rewrite R.
  destruct (rev base) as [|c rb] eqn:E.
  { apply (f_equal (@rev ascii)) in E. rewrite rev_involutive in E.
    now subst base. }
  cbn [app]. cbn [forallb] in Hr. apply andb_true_iff in Hr as [Hc Hrb].
  rewrite (vol_id_char_not_newline c Hc).
  change (c :: rb ++ ch 47 :: rev dir) with ((c :: rb) ++ ch 47 :: rev dir).
  rewrite take_while_app by (cbn [forallb]; now rewrite Hc, Hrb).
  cbn [take_while]. change (is_vol_id_char (ch 47)) with false. cbv iota.
  rewrite app_nil_r, <- E, rev_involutive.
  destruct base; [congruence | reflexivity].
Qed.

(** X27. The variable of a bind mount is named after the last component
    of the source only: for a source that ends with a slash and a name
    made of word characters, dots and underscores, a successful mount
    step files, under the source, the prefix followed by that name with
    its dots turned into underscores and by [_mount_dir].  Two sources
    with the same last component get the same variable. *)
Theorem handle_svc_volume_default cfg name vols st vol st' dir base :
  m_type vol = Bind ->
  m_source vol = dir ++ ch 47 :: base ->
  base <> [] -> forallb is_vol_id_char base = true ->
  handle_svc_volume cfg name vols st vol = Ok st' ->
  PyDict.get (m_source vol) (volume_defaults st')
  = Some (defaults_prefix cfg ++ replace (s ".") (s "_") base
            ++ s "_mount_dir").
Proof.
  intros Ht Hs Hn Hb. unfold handle_svc_volume. rewrite Ht.
  destruct (handle_svc_env_file cfg name (m_source vol)
              (with_backup_path (m_source vol) st)) as [st1|]; [|discriminate].
  cbn [bind]. intros H. injection H as <-.
  cbn [volume_defaults with_volume_default]. rewrite get_set_same.
  rewrite Hs at 1. now rewrite (search_vol_id_base dir base Hn Hb).
Qed.

Lemma handle_svc_volume_default_witness :
  exists st',
    handle_svc_volume sample_config (s "web") None init_state
      {| m_type := Bind; m_source := s "./a/app.conf" |} = Ok st'
    /\ PyDict.get (s "./a/app.conf") (volume_defaults st')
       = Some (s "app_app_conf_mount_dir").
Proof.
  eexists. split; [vm_compute; reflexivity|].
  apply (handle_svc_volume_default sample_config (s "web") None init_state
           {| m_type := Bind; m_source := s "./a/app.conf" |} _
           (s "./a") (s "app.conf"));
    reflexivity || discriminate.
Defined.

Lemma add_releases_to_defaults_value_witness :
  PyDict.mem (s "web")
    (releases_value (handle_service_image (s "web") sample_web init_state))
  = true.
Proof.
  destruct (add_releases_to_defaults_value sample_config
              (handle_service_image (s "web") sample_web init_state))
    as (r & _ & _ & M & _).
  apply (M (s "nginx:1.25")
           {| i_service := s "web"; i_tag := s "1.25"; i_kind := None |}).
  now left.
Defined.

(** X28. Two different host ports of a service never get the same port
    variable, with or without the prefix. *)
Theorem port_variables_distinct cfg name (p q : Z) (add_prefix : bool) :
  p <> q ->
  variable_from_port cfg name p add_prefix
  <> variable_from_port cfg name q add_prefix.
Proof.
  intros Hne E. apply Hne. eapply variable_from_port_inj; eauto.
Qed.

Lemma port_variables_distinct_witness :
  variable_from_port sample_config (s "web") 80 true
  <> variable_from_port sample_config (s "web") 8080 true.
Proof.
  apply (port_variables_distinct sample_config (s "web") 80 8080 true).
  lia.
Defined.
